(** * uno: a shallow embedding of the connection engine's pure core

    This development models, in Rocq, the parts of the [uno] networking
    framework whose behaviour the specification pins down:

    - the bundled framers ([internal/framer]),
    - the token bucket and the rate-limit middleware ([internal/handler]),
    - the middleware chain, the router, its trie and its LRU cache,
    - the idle detection of the connection control loop ([internal/boot/conn]),
    - the datagram server's reaper ([internal/boot/udp]).

    Go's [int], [int64] and [uint64] are modelled as [Z] with the
    wrap-around written out; byte slices are [list Byte.byte]; a panic, a
    returned error and a loop that is still running when the fuel is
    exhausted are three distinct outcomes. *)

From Stdlib Require Import ZArith Lia List Bool.
From Stdlib.Strings Require Import Byte Ascii.
From stdpp Require Import base option list gmap strings.

Local Open Scope Z_scope.

(** ** Machine integers *)

Module GoInt.

(** Two's-complement reduction to a signed 64-bit [int] / [int64]. *)
Definition wrap64 (x : Z) : Z := (x + 2 ^ 63) mod 2 ^ 64 - 2 ^ 63.

(** Conversion to [uint64]. *)
Definition u64 (x : Z) : Z := x mod 2 ^ 64.

Definition in_int64 (x : Z) : Prop := - 2 ^ 63 <= x < 2 ^ 63.

End GoInt.

(** ** Byte slices *)

Module Bytes.

Abbreviation bytes := (list Byte.byte).

Definition len (b : bytes) : Z := Z.of_nat (length b).

Definition byte_val (b : Byte.byte) : Z := Z.of_N (Byte.to_N b).

(** The slice expression [buf[lo:hi]].  Go panics unless
    [0 <= lo <= hi <= cap(buf)]; every slice expression of the framers is
    taken below [len(buf)], so the capacity never matters and [None]
    stands for the panic. *)
Definition slice (buf : bytes) (lo hi : Z) : option bytes :=
  if (0 <=? lo) && (lo <=? hi) && (hi <=? len buf)
  then Some (take (Z.to_nat (hi - lo)) (drop (Z.to_nat lo) buf))
  else None.

(** [buf[lo:]]. *)
Definition slice_from (buf : bytes) (lo : Z) : option bytes :=
  if (0 <=? lo) && (lo <=? len buf)
  then Some (drop (Z.to_nat lo) buf)
  else None.

(** [buf[:hi]]. *)
Definition slice_to (buf : bytes) (hi : Z) : option bytes :=
  slice buf 0 hi.

Fixpoint has_prefix (sep s : bytes) : bool :=
  match sep, s with
  | [], _ => true
  | _ :: _, [] => false
  | x :: sep', y :: s' => Byte.eqb x y && has_prefix sep' s'
  end.

Fixpoint index_nat (s sep : bytes) : option nat :=
  if has_prefix sep s then Some O
  else match s with
       | [] => None
       | _ :: s' => S <$> index_nat s' sep
       end.

(** [bytes.Index(s, sep)]: the index of the first instance of [sep] in
    [s], or [-1] when there is none. *)
Definition Index (s sep : bytes) : Z :=
  match index_nat s sep with
  | Some i => Z.of_nat i
  | None => -1
  end.

End Bytes.

Import GoInt Bytes.

(** ** Framers ([internal/framer/framer.go]) *)

Module Framer.

(** What a framer call does: it returns its three named results, or it
    panics. *)
Inductive outcome : Type :=
| Returned (frames : list bytes) (remaining : bytes) (err : option string)
| Panicked.

(** One pass through the body of a framer's [for] loop. *)
Inductive iter : Type :=
| Emit (frame : bytes) (rest : bytes)   (* append a frame, continue on rest *)
| Break                                  (* leave the loop: remaining = buf *)
| Fail (err : string)                    (* err = ...; return *)
| Panic.

(** The [for { ... }] loop shared by the framers.  [None] means the loop is
    still running after [fuel] passes. *)
Fixpoint frame_loop (body : bytes -> iter) (fuel : nat)
    (frames : list bytes) (buf : bytes) : option outcome :=
  match fuel with
  | O => None
  | S n =>
      match body buf with
      | Emit f rest => frame_loop body n (frames ++ [f]) rest
      | Break => Some (Returned frames buf None)
      | Fail e => Some (Returned frames [] (Some e))
      | Panic => Some Panicked
      end
  end.

(** [RawFramer]: the whole buffer is one frame; [remaining] and [err] keep
    their zero values. *)
Definition RawFramer (buf : bytes) : outcome :=
  Returned ([] ++ [buf]) [] None.

(** [idx + len(delim)] is at most [len(buf)], an [int]: the sum cannot
    wrap. *)
Definition delimiter_body (delim : bytes) (buf : bytes) : iter :=
  let idx := Index buf delim in
  if idx =? -1 then Break
  else match slice_to buf idx, slice_from buf (idx + len delim) with
       | Some f, Some rest => Emit f rest
       | _, _ => Panic
       end.

Definition DelimiterFramer (delim : bytes) (fuel : nat) (buf : bytes)
  : option outcome :=
  frame_loop (delimiter_body delim) fuel [] buf.

Definition LineFramer : nat -> bytes -> option outcome :=
  DelimiterFramer ["010"%byte].

Definition fixed_body (length : Z) (buf : bytes) : iter :=
  if length <=? len buf then
    match slice_to buf length, slice_from buf length with
    | Some f, Some rest => Emit f rest
    | _, _ => Panic
    end
  else Break.

Definition FixedLengthFramer (length : Z) (fuel : nat) (buf : bytes)
  : option outcome :=
  frame_loop (fixed_body length) fuel [] buf.

Inductive ByteOrder : Type := BigEndian | LittleEndian.

Definition be_uint (bs : bytes) : Z :=
  fold_left (fun acc b => acc * 256 + byte_val b) bs 0.

(** [order.Uint16], [order.Uint32], [order.Uint64] on a slice of exactly
    that many bytes. *)
Definition order_uint (order : ByteOrder) (bs : bytes) : Z :=
  match order with
  | BigEndian => be_uint bs
  | LittleEndian => be_uint (rev bs)
  end.

Definition unsupported_size : string := "unsupported lengthFieldSize".

Definition length_field_body
    (lengthFieldOffset lengthFieldSize lengthAdjustment initialBytesToStrip : Z)
    (order : ByteOrder) (buf : bytes) : iter :=
  let hdr := wrap64 (lengthFieldOffset + lengthFieldSize) in
  if len buf <? hdr then Break
  else
    match slice buf lengthFieldOffset hdr with
    | None => Panic
    | Some fieldBytes =>
        let field :=
          if lengthFieldSize =? 1 then
            Some (match fieldBytes with b :: _ => byte_val b | [] => 0 end)
          else if lengthFieldSize =? 2 then Some (order_uint order fieldBytes)
          else if lengthFieldSize =? 4 then Some (order_uint order fieldBytes)
          else if lengthFieldSize =? 8 then Some (order_uint order fieldBytes)
          else None in
        match field with
        | None => Fail unsupported_size
        | Some v =>
            let frameLen := u64 (v + u64 lengthAdjustment) in
            let frameEnd := wrap64 (hdr + wrap64 frameLen) in
            if len buf <? frameEnd then Break
            else
              match slice buf initialBytesToStrip frameEnd,
                    slice_from buf frameEnd with
              | Some frame, Some rest => Emit frame rest
              | _, _ => Panic
              end
        end
    end.

Definition LengthFieldFramer
    (lengthFieldOffset lengthFieldSize lengthAdjustment initialBytesToStrip : Z)
    (order : ByteOrder) (fuel : nat) (buf : bytes) : option outcome :=
  frame_loop
    (length_field_body lengthFieldOffset lengthFieldSize lengthAdjustment
       initialBytesToStrip order) fuel [] buf.

(** The body looks at a prefix only: what it does on [b ++ x] it already
    does on [b], unless [b] is too short to decide. *)
Definition prefix_stable (body : bytes -> iter) : Prop :=
  forall b x : bytes,
    match body (b ++ x) with
    | Emit f r' => body b = Break \/ exists r, body b = Emit f r /\ r' = r ++ x
    | Break => body b = Break
    | _ => True
    end.

(** What the body leaves to the next pass is a suffix of what it got. *)
Definition rest_is_suffix (body : bytes -> iter) : Prop :=
  forall (b f r : bytes), body b = Emit f r -> exists k : nat, r = drop k b.

(** The bundled framers and their constructor parameters. *)
Inductive bundled : Type :=
| Raw
| Delimiter (delim : bytes)
| Fixed (length : Z)
| LengthField
    (lengthFieldOffset lengthFieldSize lengthAdjustment initialBytesToStrip : Z)
    (order : ByteOrder).

(** A call of a bundled framer that may take [fuel] passes of its loop. *)
Definition framer (f : bundled) (fuel : nat) (buf : bytes) : option outcome :=
  match f with
  | Raw => Some (RawFramer buf)
  | Delimiter delim => DelimiterFramer delim fuel buf
  | Fixed length => FixedLengthFramer length fuel buf
  | LengthField o w a strip order => LengthFieldFramer o w a strip order fuel buf
  end.

(** Constructor parameters under which a framer returns on every input:
    a positive fixed length, a non-empty delimiter; for the length field a
    non-negative offset and width (their sum an [int]), a width other than
    8 and, for the widths 1, 2 and 4, a packet end that lies, for every
    value [0 .. 2^(8w) - 1] of the field, at or after the strip count,
    after the start of the buffer and within [int]: the smallest packet
    end is [o + w + a], the largest [o + w + a + 2^(8w) - 1]. *)
Definition well_configured (f : bundled) : Prop :=
  match f with
  | Raw => True
  | Delimiter delim => delim <> []
  | Fixed length => 0 < length
  | LengthField o w a strip _ =>
      0 <= o /\ 0 <= w /\ o + w < 2 ^ 63 /\ w <> 8 /\
      (w = 1 \/ w = 2 \/ w = 4 ->
       0 <= strip <= o + w + a /\ 1 <= o + w + a /\
       o + w + a + 2 ^ (8 * w) <= 2 ^ 63)
  end.

(** Whether a call of the framer can return an error at all: only the
    length-field framer does, for a width it does not read. *)
Definition error_free (f : bundled) : Prop :=
  match f with
  | LengthField _ w _ _ _ => w = 1 \/ w = 2 \/ w = 4 \/ w = 8
  | _ => True
  end.

(** The loop body of a bundled framer; [RawFramer] has no loop. *)
Definition body_of (f : bundled) : bytes -> iter :=
  match f with
  | Raw => fun _ => Break
  | Delimiter delim => delimiter_body delim
  | Fixed length => fixed_body length
  | LengthField o w a strip order => length_field_body o w a strip order
  end.

(** What one pass of a well-configured body can do: stop, fail, or emit a
    frame and continue at least one byte further. *)
Definition advances (body : bytes -> iter) : Prop :=
  forall b, body b = Break \/ (exists e, body b = Fail e) \/
    exists f E, 1 <= E <= len b /\ body b = Emit f (drop (Z.to_nat E) b).

(** A frame put in front of the frames of the calls that follow. *)
Definition prepend (f : bytes) (o : option outcome) : option outcome :=
  match o with
  | Some (Returned fs r e) => Some (Returned (f :: fs) r e)
  | o => o
  end.

(** The widths of the length field the framer reads. *)
Definition supported (w : Z) : Prop := w = 1 \/ w = 2 \/ w = 4 \/ w = 8.

(** The constructor parameters are [int]s. *)
Definition int_parameters (f : bundled) : Prop :=
  match f with
  | Fixed length => in_int64 length
  | LengthField o w a strip _ =>
      in_int64 o /\ in_int64 w /\ in_int64 a /\ in_int64 strip
  | _ => True
  end.

(** The [switch] of [LengthFieldFramer] on the width. *)
Definition read_field (w : Z) (order : ByteOrder) (fieldBytes : bytes)
  : option Z :=
  if w =? 1 then
    Some (match fieldBytes with b :: _ => byte_val b | [] => 0 end)
  else if w =? 2 then Some (order_uint order fieldBytes)
  else if w =? 4 then Some (order_uint order fieldBytes)
  else if w =? 8 then Some (order_uint order fieldBytes)
  else None.

(** The end of a pass of [LengthFieldFramer], once [frameEnd] is known. *)
Definition cut (strip : Z) (buf : bytes) (frameEnd : Z) : iter :=
  if len buf <? frameEnd then Break
  else
    match slice buf strip frameEnd, slice_from buf frameEnd with
    | Some frame, Some rest => Emit frame rest
    | _, _ => Panic
    end.

(** A buffer to try a length-field framer on: [o] zero bytes, a length
    field, a padding. *)
Definition probe (o : Z) (fld pad : bytes) : bytes :=
  replicate (Z.to_nat o) x00 ++ fld ++ pad.

(** The 8-byte field that holds [2^63]. *)
Definition high_field (order : ByteOrder) : bytes :=
  match order with
  | BigEndian => x80 :: replicate 7 x00
  | LittleEndian => replicate 7 x00 ++ [x80]
  end.

End Framer.

Import Framer.

(** ** The framing part of [Conn.Recv] ([internal/boot/conn]) *)

Module Recv.

(** The result of feeding chunks to a connection: the frames the framer
    calls returned, in order, and the assembly buffer left behind.  A frame
    is a slice of the assembly buffer; its bytes are taken here as they are
    when the framer returns. *)
Inductive result : Type :=
| Fed (frames : list bytes) (readBuf : bytes)
| RecvPanicked
| RecvRunning.

(** [Conn.Recv]: append the chunk to the assembly buffer and run the framer
    on the whole buffer.  On a framer error the read hook gets the error
    and the call returns: no frame is dispatched and the buffer keeps
    everything.  Otherwise the buffer is replaced by the remainder (both
    branches of the shrink test store [rest]) and the frames are
    submitted. *)
Definition Recv (framer : bytes -> option outcome) (readBuf chunk : bytes)
  : result :=
  let buf := readBuf ++ chunk in
  match framer buf with
  | None => RecvRunning
  | Some Panicked => RecvPanicked
  | Some (Returned _ _ (Some _)) => Fed [] buf
  | Some (Returned frames rest None) => Fed frames rest
  end.

(** The transport calls [Recv] once per chunk, in order. *)
Fixpoint recv_all (framer : bytes -> option outcome) (readBuf : bytes)
    (chunks : list bytes) : result :=
  match chunks with
  | [] => Fed [] readBuf
  | c :: cs =>
      match Recv framer readBuf c with
      | Fed fs rb =>
          match recv_all framer rb cs with
          | Fed fs' rb' => Fed (fs ++ fs') rb'
          | r => r
          end
      | r => r
      end
  end.

End Recv.

Import Recv.

(** ** Middleware chain ([internal/handler], [Chain]) *)

Module Chain.

Section WithWorld.

(** [W] is everything a handler can read and write; [Ctx] is the
    per-message context.  A Go [func()] is a world transformer. *)
Context {W Ctx : Type}.

Definition Handler : Type := Ctx -> (W -> W) -> W -> W.

(** The recursive closure [dispatch] of [Chain.Handler], from an index on:
    the handler at the index is called with a [next] that dispatches the
    following index; past the end, [dispatch] returns. *)
Fixpoint dispatch (handlers : list Handler) (ctx : Ctx) : W -> W :=
  match handlers with
  | [] => fun w => w
  | h :: rest => h ctx (dispatch rest ctx)
  end.

(** [Chain.Handler]: nothing runs on an empty chain or a nil context
    ([None]); handlers therefore only ever see a non-nil context. *)
Definition Handle (handlers : list Handler) (ctx : option Ctx) : W -> W :=
  match handlers, ctx with
  | [], _ => fun w => w
  | _, None => fun w => w
  | _, Some c => dispatch handlers c
  end.

End WithWorld.

Arguments Handler : clear implicits.

End Chain.

(** ** Token bucket and rate-limit middleware ([internal/handler]) *)

Module RateLimit.

Record AtomicBucket : Type := mkBucket {
  capacity : Z;     (* maximum number of tokens *)
  tokens : Z;       (* current number of tokens *)
  refillRate : Z;   (* tokens added per second *)
  lastRefill : Z;   (* time of the last refill, ns *)
  lastAccess : Z;   (* time of the last access, ns *)
}.

(** [NewAtomicBucket(rate, burst)], [now] being the reading of
    [time.Now().UnixNano()]. *)
Definition NewAtomicBucket (now rate burst : Z) : AtomicBucket :=
  {| capacity := burst; tokens := burst; refillRate := rate;
     lastRefill := now; lastAccess := now |}.

(** The refill half of [Allow].  Run by one goroutine at a time every
    compare-and-swap succeeds at its first attempt. *)
Definition refill (b : AtomicBucket) (now : Z) : AtomicBucket :=
  let last := lastRefill b in
  let elapsed := wrap64 (now - last) in
  if elapsed >? 0 then
    let newTokens := Z.quot (wrap64 (elapsed * refillRate b)) 1000000000 in
    if newTokens >? 0 then
      let old := tokens b in
      let newVal := wrap64 (old + newTokens) in
      let newVal := if newVal >? capacity b then capacity b else newVal in
      {| capacity := capacity b; tokens := newVal; refillRate := refillRate b;
         lastRefill := now; lastAccess := lastAccess b |}
    else b
  else b.

(** The consume half of [Allow]. *)
Definition consume (b : AtomicBucket) (now : Z) : bool * AtomicBucket :=
  let old := tokens b in
  if old <=? 0 then
    (false,
     {| capacity := capacity b; tokens := old; refillRate := refillRate b;
        lastRefill := lastRefill b; lastAccess := now |})
  else
    (true,
     {| capacity := capacity b; tokens := wrap64 (old - 1);
        refillRate := refillRate b;
        lastRefill := lastRefill b; lastAccess := now |}).

Definition Allow (b : AtomicBucket) (now : Z) : bool * AtomicBucket :=
  consume (refill b now) now.

(** A run of [Allow] calls, one per clock reading; the number that
    returned [true] and the bucket afterwards. *)
Fixpoint allow_all (b : AtomicBucket) (times : list Z) : nat * AtomicBucket :=
  match times with
  | [] => (O, b)
  | t :: ts =>
      let '(ok, b1) := Allow b t in
      let '(n, b2) := allow_all b1 ts in
      ((if ok then S n else n), b2)
  end.

(** One second, in nanoseconds. *)
Definition giga : Z := 1000000000.

(** A bucket of rate [rate] and capacity [burst], holding between no token
    and [burst] tokens, whose last refill is [last0] or lies in the
    interval that starts at [t0] and is [delta] nanoseconds long. *)
Definition bucket_inv (rate burst t0 delta last0 : Z) (b : AtomicBucket)
  : Prop :=
  capacity b = burst /\ refillRate b = rate /\
  0 <= tokens b <= burst /\
  (lastRefill b = last0 \/ t0 <= lastRefill b <= t0 + delta).

(** What the calls of the interval can still be granted: the tokens at hand
    plus the tokens the time up to the end of the interval can add.  The
    time that passed before the interval began counts too, until the first
    refill of the interval; it is worth one token at most when a call of
    the interval passes without a refill. *)
Definition potential (rate burst t0 delta : Z) (b : AtomicBucket) : Z :=
  let ahead := rate * (t0 + delta - lastRefill b) / giga in
  if lastRefill b <? t0
  then Z.min (tokens b + ahead) (burst + rate * delta / giga + 1)
  else tokens b + Z.max 0 ahead.

(** The state captured by the closure [RateLimitHandler] returns, and the
    clock it reads. *)
Record Limiter : Type := mkLimiter {
  connBuckets : gmap string AtomicBucket;
  global : AtomicBucket;
  clock : nat -> Z;      (* successive readings of time.Now().UnixNano() *)
  reads : nat;           (* how many readings were taken *)
}.

Definition time_Now (l : Limiter) : Z * Limiter :=
  (clock l (reads l),
   {| connBuckets := connBuckets l; global := global l;
      clock := clock l; reads := S (reads l) |}).

(** [connBuckets.LoadOrStore(connID, fresh)]. *)
Definition LoadOrStore (l : Limiter) (connID : string) (fresh : AtomicBucket)
  : AtomicBucket * Limiter :=
  match connBuckets l !! connID with
  | Some tb => (tb, l)
  | None =>
      (fresh,
       {| connBuckets := <[connID := fresh]> (connBuckets l);
          global := global l; clock := clock l; reads := reads l |})
  end.

(** [tb.Allow()] on the bucket of [connID], which lives in the map. *)
Definition conn_Allow (l : Limiter) (connID : string) (tb : AtomicBucket)
  : bool * Limiter :=
  let '(now, l) := time_Now l in
  let '(ok, tb') := Allow tb now in
  (ok, {| connBuckets := <[connID := tb']> (connBuckets l);
          global := global l; clock := clock l; reads := reads l |}).

Definition global_Allow (l : Limiter) : bool * Limiter :=
  let '(now, l) := time_Now l in
  let '(ok, g') := Allow (global l) now in
  (ok, {| connBuckets := connBuckets l; global := g';
          clock := clock l; reads := reads l |}).

Section Handler.

Context {W Ctx : Type}.
Variable conn_ID : Ctx -> string.             (* ctx.Conn().ID() *)
Variable get_limiter : W -> Limiter.
Variable set_limiter : Limiter -> W -> W.

(** The middleware returned by [RateLimitHandler(connRate, connBurst,
    globalRate, globalBurst, limit)].  [||] is short-circuit: the global
    bucket is only asked when the connection's bucket granted. *)
Definition RateLimitHandler (connRate connBurst : Z)
    (limit : option (Chain.Handler W Ctx)) : Chain.Handler W Ctx :=
  fun ctx next w =>
    let connID := conn_ID ctx in
    let l := get_limiter w in
    let '(now, l) := time_Now l in
    let '(tb, l) := LoadOrStore l connID (NewAtomicBucket now connRate connBurst) in
    let '(ok1, l) := conn_Allow l connID tb in
    let '(refused, l) :=
      if negb ok1 then (true, l)
      else let '(ok2, l) := global_Allow l in (negb ok2, l) in
    let w := set_limiter l w in
    if refused then
      match limit with
      | Some lim => lim ctx next w
      | None => w
      end
    else next w.

End Handler.

(** [RateLimitHandler]'s own initialisation: the global bucket. *)
Definition new_limiter (clk : nat -> Z) (globalRate globalBurst : Z) : Limiter :=
  {| connBuckets := ∅;
     global := NewAtomicBucket (clk O) globalRate globalBurst;
     clock := clk; reads := 1 |}.

End RateLimit.

(** ** Strings as the router uses them ([strings] of the Go library) *)

Module Strings.

Fixpoint mem (c : ascii) (cutset : string) : bool :=
  match cutset with
  | EmptyString => false
  | String d rest => if Ascii.eqb c d then true else mem c rest
  end.

Fixpoint trim_left (keep_out : ascii -> bool) (s : string) : string :=
  match s with
  | EmptyString => EmptyString
  | String c rest => if keep_out c then trim_left keep_out rest else s
  end.

Definition trim (keep_out : ascii -> bool) (s : string) : string :=
  String.rev (trim_left keep_out (String.rev (trim_left keep_out s))).

(** [strings.Trim(s, cutset)] on ASCII strings. *)
Definition Trim (s cutset : string) : string :=
  trim (fun c => mem c cutset) s.

(** White space as [strings.TrimSpace] sees it in ASCII text. *)
Definition is_space (c : ascii) : bool :=
  let n := nat_of_ascii c in
  ((9 <=? n)%nat && (n <=? 13)%nat) || (n =? 32)%nat.

Definition TrimSpace (s : string) : string := trim is_space s.

Fixpoint split_aux (sep : string) (skip : nat) (cur : string) (s : string)
  : list string :=
  match s with
  | EmptyString => [String.rev cur]
  | String c rest =>
      match skip with
      | S k => split_aux sep k cur rest
      | O =>
          if String.prefix sep s
          then String.rev cur :: split_aux sep (String.length sep - 1) EmptyString rest
          else split_aux sep O (String c cur) rest
      end
  end.

Fixpoint explode (s : string) : list string :=
  match s with
  | EmptyString => []
  | String c rest => String c EmptyString :: explode rest
  end.

(** [strings.Split(s, sep)]; an empty separator splits after every
    character. *)
Definition Split (s sep : string) : list string :=
  match sep with
  | EmptyString => explode s
  | _ => split_aux sep O EmptyString s
  end.

Fixpoint Join (parts : list string) (sep : string) : string :=
  match parts with
  | [] => EmptyString
  | [x] => x
  | x :: rest => String.append x (String.append sep (Join rest sep))
  end.

Definition nonempty (s : string) : bool :=
  match s with EmptyString => false | _ => true end.

End Strings.

(** ** Copy-on-write trie ([pkg/trie]) *)

Module Trie.

(** The address of a variable whose address the code takes: each such
    variable gets the next address, so two variables never share one. *)
Definition addr : Type := nat.

(** [children] is an [atomic.Pointer] to a map: nil, or the address of the
    variable that holds the map, with the map found there (a published map
    is never written again). *)
#[warnings="-register-all"]
Inductive Node (V : Type) : Type := mkNode {
  part : string;
  value : option V;                                   (* atomic.Value *)
  children : option (addr * gmap string (Node V));
}.
Arguments mkNode {V}.
Arguments part {V}.
Arguments value {V}.
Arguments children {V}.

(** The trie, and the next address to hand out. *)
Record Trie (V : Type) : Type := mkTrie {
  root : Node V;
  fresh : addr;
}.
Arguments mkTrie {V}.
Arguments root {V}.
Arguments fresh {V}.

Section WithValue.
Context {V : Type}.

(** [trie.New()]. *)
Definition New : Trie V := mkTrie (mkNode EmptyString None None) O.

(** [Node.Children]: the map behind the pointer, nil for a nil pointer. *)
Definition Children (n : Node V) : option (gmap string (Node V)) :=
  snd <$> children n.

(** [Node.Child]. *)
Definition Child (n : Node V) (p : string) : option (Node V) :=
  match Children n with
  | None => None
  | Some m => m !! p
  end.

Fixpoint Query_from (cur : Node V) (parts : list string) : option V :=
  match parts with
  | [] => value cur
  | p :: ps =>
      match Child cur p with
      | None => None
      | Some child => Query_from child ps
      end
  end.

(** [Trie.Query]: the value at the end of the path, found when non-nil. *)
Definition Query (t : Trie V) (parts : list string) : option V :=
  Query_from (root t) parts.

(** [atomic.Pointer.CompareAndSwap(old, new)] succeeds when the pointer
    stored is [old]: two nil pointers, or twice the same address. *)
Definition CompareAndSwap (stored old : option addr) : bool :=
  match stored, old with
  | None, None => true
  | Some a, Some b => Nat.eqb a b
  | _, _ => false
  end.

(** The loops of [Trie.Insert] from the node [cur] on, for the parts still
    to walk; every pass of the inner [for] takes one unit of [fuel], and
    [None] means the loops are still running when it is used up.

    A pass declares [children], whose address the second swap takes, and
    loads the map.  A nil map is replaced by a new empty one: the swap
    from nil succeeds (the pointer was just read as nil).  A child that is
    there is walked into.  A child that is missing is put into a copy of
    the map, [newMap], and the swap [CompareAndSwap(&children, &newMap)]
    decides: on success the new child is walked into, otherwise the pass
    is repeated. *)
Fixpoint Insert_loop (fuel : nat) (cur : Node V) (v : V) (parts : list string)
    (fresh : addr) : option (Node V * addr) :=
  match parts with
  | [] => Some (mkNode (part cur) (Some v) (children cur), fresh)
  | p :: ps =>
      match fuel with
      | O => None
      | S n =>
          let a_children := fresh in
          let fresh := S fresh in
          let lookup (cur : Node V) (m : gmap string (Node V)) (fresh : addr) :=
            match m !! p with
            | Some child =>
                match Insert_loop n child v ps fresh with
                | Some (child', fresh') =>
                    Some (mkNode (part cur) (value cur)
                            ((fun am => (am.1, <[p := child']> am.2))
                               <$> children cur),
                          fresh')
                | None => None
                end
            | None =>
                let newChild := mkNode p None None in
                let newMap := <[p := newChild]> m in
                let a_newMap := fresh in
                let fresh := S fresh in
                if CompareAndSwap (fst <$> children cur) (Some a_children)
                then
                  match Insert_loop n newChild v ps fresh with
                  | Some (child', fresh') =>
                      Some (mkNode (part cur) (value cur)
                              (Some (a_newMap, <[p := child']> newMap)),
                            fresh')
                  | None => None
                  end
                else Insert_loop n cur v parts fresh
            end in
          match Children cur with
          | None =>
              let a_newMap := fresh in
              let fresh := S fresh in
              if CompareAndSwap (fst <$> children cur) None
              then lookup (mkNode (part cur) (value cur) (Some (a_newMap, ∅)))
                          ∅ fresh
              else Insert_loop n cur v parts fresh
          | Some m => lookup cur m fresh
          end
      end
  end.

(** [Trie.Insert]. *)
Definition Insert (fuel : nat) (t : Trie V) (v : V) (parts : list string)
  : option (Trie V) :=
  (fun nf => mkTrie nf.1 nf.2) <$> Insert_loop fuel (root t) v parts (fresh t).

(** A node without a child: its pointer is nil, or points to an empty map
    published before the address [fresh] was reached. *)
Definition barren (n : Node V) (fresh : addr) : Prop :=
  match children n with
  | None => True
  | Some (a, m) => (a < fresh)%nat /\ m = ∅
  end.

End WithValue.

End Trie.

(** ** LRU cache of the router ([internal/handler], [lruCache]) *)
Module Lru.

Section WithValue.
Context {V : Type}.

(** The linked list, most recently used first; the map of the Go code
    indexes the same entries by key. *)
Record lruCache : Type := mkLru {
  capacity : Z;
  entries : list (string * V);
}.

Definition newLRUCache (cap : Z) : lruCache :=
  {| capacity := cap; entries := [] |}.

Fixpoint find (key : string) (l : list (string * V)) : option V :=
  match l with
  | [] => None
  | (k, v) :: rest => if String.eqb k key then Some v else find key rest
  end.

Fixpoint remove (key : string) (l : list (string * V)) : list (string * V) :=
  match l with
  | [] => []
  | (k, v) :: rest => if String.eqb k key then rest else (k, v) :: remove key rest
  end.

(** [Get]: a hit moves the entry to the front. *)
Definition Get (c : lruCache) (key : string) : option V * lruCache :=
  match find key (entries c) with
  | Some v =>
      (Some v, {| capacity := capacity c;
                  entries := (key, v) :: remove key (entries c) |})
  | None => (None, c)
  end.

(** [removeOldest]: drop the back of the list. *)
Definition removeOldest (l : list (string * V)) : list (string * V) :=
  removelast l.

Definition Add (c : lruCache) (key : string) (v : V) : lruCache :=
  if capacity c =? 0 then c
  else
    match find key (entries c) with
    | Some _ =>
        {| capacity := capacity c;
           entries := (key, v) :: remove key (entries c) |}
    | None =>
        let l := (key, v) :: entries c in
        {| capacity := capacity c;
           entries := if Z.of_nat (length l) >? capacity c
                      then removeOldest l else l |}
    end.

Definition Clear (c : lruCache) : lruCache :=
  {| capacity := capacity c; entries := [] |}.

End WithValue.

Arguments lruCache : clear implicits.

End Lru.

(** ** Router ([internal/handler], [Router], [RouterGroup], [Route]) *)

Module Router.

Import Strings.

(** How a call ends: it returns, it panics on a nil pointer, it waits for
    ever for a lock, or it is still looping when the fuel is used up. *)
Inductive run (A : Type) : Type :=
| Returns (a : A)
| Panics
| Blocks
| Spins.
Arguments Returns {A}.
Arguments Panics {A}.
Arguments Blocks {A}.
Arguments Spins {A}.

(** [sync.RWMutex]: free, held by a writer, or held by readers. *)
Inductive RWMutex : Type :=
| Unlocked
| WLocked
| RLocked (readers : nat).

(** [Lock] and [RLock] give the mutex as the caller holds it, or [None]
    when the caller has to wait.  The router is used by one goroutine
    here: a lock it waits for is one it holds itself, and it waits for
    ever. *)
Definition Lock (m : RWMutex) : option RWMutex :=
  match m with
  | Unlocked => Some WLocked
  | _ => None
  end.

Definition Unlock (m : RWMutex) : RWMutex :=
  match m with
  | WLocked => Unlocked
  | m => m
  end.

Definition RLock (m : RWMutex) : option RWMutex :=
  match m with
  | Unlocked => Some (RLocked 1)
  | RLocked n => Some (RLocked (S n))
  | WLocked => None
  end.

Definition RUnlock (m : RWMutex) : RWMutex :=
  match m with
  | RLocked (S (S n)) => RLocked (S n)
  | RLocked _ => Unlocked
  | m => m
  end.

Section WithHandler.

(** [H] is the type of the handler values the router stores. *)
Context {H : Type}.

(** [*RouterGroup] is an index into the router's groups; index [0] is the
    root group the router embeds. *)
Record RouterGroup : Type := mkGroup {
  prefix : string;
  parent : option nat;
  children : list nat;
  mu : RWMutex;
  middleware : list H;
  cacheValid : bool;
  cachedHandlers : list H;
}.

Record Route : Type := mkRoute {
  group : nat;
  path : string;
  route_middleware : list H;
}.

Record Router : Type := mkRouter {
  groups : list RouterGroup;
  sep : string;
  trie : Trie.Trie Route;
  cache : option (Lru.lruCache Route);
  notFound : option (list H);
}.

Definition set_groups (r : Router) (gs : list RouterGroup) : Router :=
  {| groups := gs; sep := sep r; trie := trie r; cache := cache r;
     notFound := notFound r |}.

Definition set_cache (r : Router) (c : option (Lru.lruCache Route)) : Router :=
  {| groups := groups r; sep := sep r; trie := trie r; cache := c;
     notFound := notFound r |}.

Definition set_trie (r : Router) (t : Trie.Trie Route) : Router :=
  {| groups := groups r; sep := sep r; trie := t; cache := cache r;
     notFound := notFound r |}.

Definition set_mu (grp : RouterGroup) (m : RWMutex) : RouterGroup :=
  {| prefix := prefix grp; parent := parent grp; children := children grp;
     mu := m; middleware := middleware grp; cacheValid := cacheValid grp;
     cachedHandlers := cachedHandlers grp |}.

Definition set_children (grp : RouterGroup) (cs : list nat) : RouterGroup :=
  {| prefix := prefix grp; parent := parent grp; children := cs;
     mu := mu grp; middleware := middleware grp; cacheValid := cacheValid grp;
     cachedHandlers := cachedHandlers grp |}.

Definition set_middleware (grp : RouterGroup) (hs : list H) : RouterGroup :=
  {| prefix := prefix grp; parent := parent grp; children := children grp;
     mu := mu grp; middleware := hs; cacheValid := cacheValid grp;
     cachedHandlers := cachedHandlers grp |}.

Definition set_cacheValid (grp : RouterGroup) (v : bool) : RouterGroup :=
  {| prefix := prefix grp; parent := parent grp; children := children grp;
     mu := mu grp; middleware := middleware grp; cacheValid := v;
     cachedHandlers := cachedHandlers grp |}.

Definition set_cachedHandlers (grp : RouterGroup) (hs : list H) : RouterGroup :=
  {| prefix := prefix grp; parent := parent grp; children := children grp;
     mu := mu grp; middleware := middleware grp; cacheValid := cacheValid grp;
     cachedHandlers := hs |}.

(** [NewRouter(sep)]. *)
Definition NewRouter (sep : string) : Router :=
  {| groups := [ {| prefix := EmptyString; parent := None; children := [];
                    mu := Unlocked; middleware := []; cacheValid := false;
                    cachedHandlers := [] |} ];
     sep := sep; trie := Trie.New; cache := None; notFound := None |}.

Definition clean (parts : list string) : list string :=
  filter (fun p => Is_true (nonempty p)) (map TrimSpace parts).

(** [Router.SplitPath]. *)
Definition SplitPath (r : Router) (path : string) : list string :=
  let path := Trim path (sep r) in
  if nonempty path then clean (Split path (sep r)) else [].

(** [Router.JoinPath]. *)
Definition JoinPath (r : Router) (parts : list string) : string :=
  match parts with
  | [] => EmptyString
  | _ => Join (clean parts) (sep r)
  end.

(** [Router.Lru]: the store of [nil] for a non-positive size is followed
    by the store of a new cache all the same. *)
Definition Lru (r : Router) (size : Z) : Router :=
  let r := if size <=? 0 then set_cache r None else r in
  set_cache r (Some (Lru.newLRUCache size)).

(** [Router.NotFound]. *)
Definition NotFound (r : Router) (handlers : list H) : Router :=
  match handlers with
  | [] => r
  | _ => {| groups := groups r; sep := sep r; trie := trie r;
            cache := cache r; notFound := Some handlers |}
  end.

(** [Router.Match]: the cache first, then the trie, whose hit is added to
    the cache. *)
Definition Match (r : Router) (path : string) : option Route * Router :=
  let hit :=
    match cache r with
    | Some c =>
        match Lru.Get c path with
        | (Some v, c') => Some (v, set_cache r (Some c'))
        | (None, _) => None
        end
    | None => None
    end in
  match hit with
  | Some (v, r') => (Some v, r')
  | None =>
      let parts := SplitPath r path in
      match Trie.Query (trie r) parts with
      | None => (None, r)
      | Some route =>
          match cache r with
          | Some c => (Some route, set_cache r (Some (Lru.Add c path route)))
          | None => (Some route, r)
          end
      end
  end.

(** [Router.insert]: the cache is cleared once [Trie.Insert] has
    returned. *)
Definition insert (fuel : nat) (r : Router) (route : Route) : run Router :=
  let parts := SplitPath r (path route) in
  match Trie.Insert fuel (trie r) route parts with
  | None => Spins
  | Some t =>
      let r := set_trie r t in
      match cache r with
      | Some c => Returns (set_cache r (Some (Lru.Clear c)))
      | None => Returns r
      end
  end.

(** [RouterGroup.Group]: a new child group, or the group itself for an
    empty prefix.  A nil receiver ([None]) panics. *)
Definition Group (r : Router) (g : nat) (pfx : string) : run (nat * Router) :=
  match pfx with
  | EmptyString => Returns (g, r)
  | _ =>
      match groups r !! g with
      | None => Panics
      | Some grp =>
          let child := {| prefix := JoinPath r [prefix grp; pfx];
                          parent := Some g; children := [];
                          mu := Unlocked; middleware := [];
                          cacheValid := false; cachedHandlers := [] |} in
          match Lock (mu grp) with
          | None => Blocks
          | Some held =>
              let id := length (groups r) in
              let grp := set_children (set_mu grp held) (children grp ++ [id]) in
              (* deferred: g.mu.Unlock() *)
              let grp := set_mu grp (Unlock (mu grp)) in
              Returns (id, set_groups r (<[g := grp]> (groups r) ++ [child]))
          end
      end
  end.

(** [RouterGroup.invalidateCache]: the flag is cleared, the children are
    read under the read lock, and each child is invalidated in turn.
    [fuel] bounds the depth of the recursion. *)
Fixpoint invalidateCache (fuel : nat) (gs : list RouterGroup) (g : nat)
  : run (list RouterGroup) :=
  match fuel with
  | O => Spins
  | S n =>
      match gs !! g with
      | None => Panics
      | Some grp =>
          let grp := set_cacheValid grp false in
          match RLock (mu grp) with
          | None => Blocks
          | Some held =>
              let cs := children grp in
              let grp := set_mu grp (RUnlock held) in
              (fix each (cs : list nat) (gs : list RouterGroup)
                 : run (list RouterGroup) :=
                 match cs with
                 | [] => Returns gs
                 | child :: cs =>
                     match invalidateCache n gs child with
                     | Returns gs => each cs gs
                     | other => other
                     end
                 end) cs (<[g := grp]> gs)
          end
      end
  end.

(** [RouterGroup.Use]: under the write lock of the group the handlers are
    appended, then [invalidateCache] is called, which asks for the read
    lock of the same group. *)
Definition Use (r : Router) (g : nat) (handlers : list H) : run Router :=
  match handlers with
  | [] => Returns r
  | _ =>
      match groups r !! g with
      | None => Panics
      | Some grp =>
          match Lock (mu grp) with
          | None => Blocks
          | Some held =>
              let grp := set_middleware (set_mu grp held)
                           (middleware grp ++ handlers) in
              let gs := <[g := grp]> (groups r) in
              match invalidateCache (length gs) gs g with
              | Returns gs =>
                  (* deferred: g.mu.Unlock() *)
                  Returns (set_groups r
                             (alter (fun grp => set_mu grp (Unlock (mu grp))) g gs))
              | Panics => Panics
              | Blocks => Blocks
              | Spins => Spins
              end
          end
      end
  end.

(** [RouterGroup.Handle]. *)
Definition Handle (fuel : nat) (r : Router) (g : nat) (p : string)
    (handlers : list H) : run Router :=
  match handlers with
  | [] => Returns r
  | _ =>
      match groups r !! g with
      | None => Panics
      | Some grp =>
          let fullPath := JoinPath r [prefix grp; p] in
          insert fuel r {| group := g; path := fullPath;
                           route_middleware := handlers |}
      end
  end.

(** The loop of [RouterGroup.Handlers]: from a group up to the root, each
    group's middleware, read under its read lock, goes in front of what
    was combined so far.  [fuel] bounds the number of groups walked. *)
Fixpoint combine (fuel : nat) (gs : list RouterGroup) (current : option nat)
    (combined : list H) : run (list H) :=
  match current with
  | None => Returns combined
  | Some id =>
      match fuel with
      | O => Spins
      | S n =>
          match gs !! id with
          | None => Panics
          | Some grp =>
              match RLock (mu grp) with
              | None => Blocks
              | Some _ => combine n gs (parent grp) (middleware grp ++ combined)
              end
          end
      end
  end.

(** [RouterGroup.Handlers]: the cached list when the flag is set;
    otherwise the combined list, which is cached. *)
Definition Handlers (r : Router) (g : nat) : run (list H * Router) :=
  match groups r !! g with
  | None => Panics
  | Some grp =>
      if cacheValid grp then Returns ([] ++ cachedHandlers grp, r)
      else
        match combine (length (groups r)) (groups r) (Some g) [] with
        | Returns combined =>
            let grp := set_cachedHandlers (set_cacheValid grp true) combined in
            Returns (combined, set_groups r (<[g := grp]> (groups r)))
        | Panics => Panics
        | Blocks => Blocks
        | Spins => Spins
        end
  end.

(** [Route.Handlers]. *)
Definition Route_Handlers (r : Router) (route : Route)
  : run (list H * Router) :=
  match Handlers r (group route) with
  | Returns (hs, r') => Returns (hs ++ route_middleware route, r')
  | Panics => Panics
  | Blocks => Blocks
  | Spins => Spins
  end.

Implicit Types (gs : list RouterGroup) (r : Router) (route : Route).

(** The entries of the router's cache, none when there is no cache. *)
Definition cache_entries r : list (string * Route) :=
  match cache r with
  | Some c => Lru.entries c
  | None => []
  end.

(** What a lookup without any cache answers. *)
Definition lookup_trie r (p : string) : option Route :=
  Trie.Query (trie r) (SplitPath r p).

(** Every cached answer is the trie's answer. *)
Definition cache_coherent r : Prop :=
  forall (p : string) route,
    Lru.find p (cache_entries r) = Some route -> lookup_trie r p = Some route.

(** The calls of the router's interface. *)
Inductive op : Type :=
| OMatch (p : string)
| OHandle (g : nat) (p : string) (handlers : list H)
| OGroup (g : nat) (pfx : string)
| OUse (g : nat) (handlers : list H)
| OLru (size : Z)
| ONotFound (handlers : list H)
| OHandlers (g : nat).

(** One call; [fuel] is how many passes of [Trie.Insert]'s loop a
    [Handle] is waited for. *)
Definition apply_op (fuel : nat) r (o : op) : run Router :=
  match o with
  | OMatch p => Returns (Match r p).2
  | OHandle g p hs => Handle fuel r g p hs
  | OGroup g pfx =>
      match Group r g pfx with
      | Returns (_, r') => Returns r'
      | Panics => Panics
      | Blocks => Blocks
      | Spins => Spins
      end
  | OUse g hs => Use r g hs
  | OLru size => Returns (Lru r size)
  | ONotFound hs => Returns (NotFound r hs)
  | OHandlers g =>
      match Handlers r g with
      | Returns (_, r') => Returns r'
      | Panics => Panics
      | Blocks => Blocks
      | Spins => Spins
      end
  end.

(** The calls one after the other, each one made when the one before has
    returned. *)
Fixpoint run_ops (fuel : nat) r (ops : list op) : run Router :=
  match ops with
  | [] => Returns r
  | o :: ops =>
      match apply_op fuel r o with
      | Returns r' => run_ops fuel r' ops
      | other => other
      end
  end.

(** The routers the code can build: made by [NewRouter] and used through
    calls that returned. *)
Inductive reachable : Router -> Prop :=
| reachable_NewRouter (separator : string) : reachable (NewRouter separator)
| reachable_call (fuel : nat) r (o : op) r' :
    reachable r -> apply_op fuel r o = Returns r' -> reachable r'.

(** Parents are created before their children. *)
Definition parents_first gs : Prop :=
  forall id grp p, gs !! id = Some grp -> parent grp = Some p -> (p < id)%nat.

(** No group holds a lock or a middleware, and a cached chain is empty. *)
Definition groups_idle gs : Prop :=
  forall id grp, gs !! id = Some grp ->
    mu grp = Unlocked /\ middleware grp = [] /\ cachedHandlers grp = [].

(** The routes of the trie belong to groups of the router. *)
Definition routes_live r : Prop :=
  forall (parts : list string) route,
    Trie.Query (trie r) parts = Some route ->
    (group route < length (groups r))%nat.

(** What every reachable router satisfies. *)
Definition settled r : Prop :=
  Trie.barren (Trie.root (trie r)) (Trie.fresh (trie r)) /\
  groups_idle (groups r) /\ parents_first (groups r) /\
  cache_coherent r /\ routes_live r.

End WithHandler.

Arguments RouterGroup : clear implicits.
Arguments Route : clear implicits.
Arguments Router : clear implicits.

Section Middleware.

Context {W Ctx H : Type}.

(** Calling a stored handler value. *)
Variable call : H -> Chain.Handler W Ctx.
(** The router the middleware closes over lives in the world. *)
Variable get_router : W -> Router H.
Variable set_router : Router H -> W -> W.

(** The middleware returned by [RouterHandler(resolver, router)]. *)
Definition RouterHandler (resolver : Ctx -> W -> (string * bool) * W)
    (ctx : Ctx) (next : W -> W) (w : W) : run W :=
  let chain : list (Chain.Handler W Ctx) := [] in
  let '((p, ok), w) := resolver ctx w in
  if negb ok then Returns (next w)
  else
    let '(found, r) := Match (get_router w) p in
    let built :=
      match found with
      | Some route =>
          match Route_Handlers r route with
          | Returns (hs, r') => Returns (chain ++ map call hs, r')
          | Panics => Panics
          | Blocks => Blocks
          | Spins => Spins
          end
      | None =>
          match notFound r with
          | Some load => Returns (chain ++ map call load, r)
          | None => Returns (chain, r)
          end
      end in
    match built with
    | Returns (chain, r) =>
        let chain := chain ++ [fun _ _ => next] in
        Returns (Chain.Handle chain (Some ctx) (set_router r w))
    | Panics => Panics
    | Blocks => Blocks
    | Spins => Spins
    end.

(** The handlers [hs] called in order, each one with a [next] that calls
    the following one, the last one with [next] itself. *)
Definition in_order (hs : list H) (ctx : Ctx) (next : W -> W) : W -> W :=
  fold_right (fun h k => call h ctx k) next hs.

End Middleware.

End Router.


(** ** Time ([time] of the Go library) *)

Module Time.

(** An instant is a number of nanoseconds since the Unix epoch; [Time]
    covers far more than 64 bits of them, so instants are plain [Z].  A
    [Duration] is an [int64] of nanoseconds. *)
Definition Time : Type := Z.
Definition Duration : Type := Z.

Definition Nanosecond : Duration := 1.
Definition Second : Duration := 1000000000.
Definition Minute : Duration := 60 * Second.

Definition minDuration : Duration := - 2 ^ 63.
Definition maxDuration : Duration := 2 ^ 63 - 1.

(** [time.Unix(sec, nsec)]. *)
Definition Unix (sec nsec : Z) : Time := sec * 1000000000 + nsec.

(** [t.UnixNano()], for an instant an [int64] can hold. *)
Definition UnixNano (t : Time) : Z := wrap64 t.

(** [t.Sub(u)] on wall-clock readings: the difference, or the minimum or
    maximum duration when it does not fit. *)
Definition Sub (t u : Time) : Duration :=
  let d := t - u in
  if d <? minDuration then minDuration
  else if d >? maxDuration then maxDuration
  else d.

(** [time.Since(u)] at the instant [now]. *)
Definition Since (now u : Time) : Duration := Sub now u.

(** [time.NewTicker(d)] panics on a non-positive interval ([None]);
    otherwise the ticker's period. *)
Definition NewTicker (d : Duration) : option Duration :=
  if d <=? 0 then None else Some d.

End Time.

(** ** The connection ([internal/boot/conn], [Conn]) *)

Module Conn.

Import Time.

Record Conn : Type := mkConn {
  IdleTimeout : Duration;     (* Cfg.IdleTimeout *)
  active : bool;              (* atomic.Bool *)
  last : Z;                   (* atomic.Int64 *)
  started : bool;             (* startOnce has run *)
  closing : bool;             (* closeOnce has run *)
  done : bool;                (* Ctx is canceled *)
  closed : bool;              (* the closed channel is closed *)
  sendCh : list bytes;        (* queued frames, 10000 slots *)
  sendCh_closed : bool;
}.

Definition sendCh_cap : Z := 10000.

(** [NewConn]. *)
Definition NewConn (idle : Duration) : Conn :=
  {| IdleTimeout := idle; active := false; last := 0; started := false;
     closing := false; done := false; closed := false; sendCh := [];
     sendCh_closed := false |}.

Definition IsActive (c : Conn) : bool := active c.

(** [Touch], at the instant [now]. *)
Definition Touch (c : Conn) (now : Time) : Conn :=
  {| IdleTimeout := IdleTimeout c; active := active c; last := UnixNano now;
     started := started c; closing := closing c; done := done c;
     closed := closed c; sendCh := sendCh c; sendCh_closed := sendCh_closed c |}.

(** [LastActive]. *)
Definition LastActive (c : Conn) : Time := Unix 0 (last c).

(** [Start]: once; the loops are launched, the flag is stored and the
    connection touched. *)
Definition Start (c : Conn) (now : Time) : Conn :=
  if started c then c
  else
    Touch {| IdleTimeout := IdleTimeout c; active := true; last := last c;
             started := true; closing := closing c; done := done c;
             closed := closed c; sendCh := sendCh c;
             sendCh_closed := sendCh_closed c |} now.

(** [Cancel]. *)
Definition Cancel (c : Conn) : Conn :=
  {| IdleTimeout := IdleTimeout c; active := active c; last := last c;
     started := started c; closing := closing c; done := true;
     closed := closed c; sendCh := sendCh c; sendCh_closed := sendCh_closed c |}.

(** [Close]: once; cancels the scope (and then waits for [closed]). *)
Definition Close (c : Conn) : Conn :=
  if closing c then c
  else
    Cancel {| IdleTimeout := IdleTimeout c; active := active c; last := last c;
              started := started c; closing := true; done := done c;
              closed := closed c; sendCh := sendCh c;
              sendCh_closed := sendCh_closed c |}.

(** The [Ctx.Done()] branch of [mainLoop] with its deferred calls: the send
    queue is closed, the close hook dispatched, [closed] is closed.  It
    can run only once the scope is canceled. *)
Definition mainLoop_done (c : Conn) : Conn :=
  if done c && started c && negb (closed c) then
    {| IdleTimeout := IdleTimeout c; active := active c; last := last c;
       started := started c; closing := closing c; done := done c;
       closed := true; sendCh := sendCh c; sendCh_closed := true |}
  else c.

(** One frame leaves the queue and is written: [writeLoop] touches the
    connection. *)
Definition writeLoop_step (c : Conn) (now : Time) : Conn :=
  match sendCh c with
  | [] => c
  | _ :: rest =>
      Touch {| IdleTimeout := IdleTimeout c; active := active c; last := last c;
               started := started c; closing := closing c; done := done c;
               closed := closed c; sendCh := rest;
               sendCh_closed := sendCh_closed c |} now
  end.

(** Where a [net.ErrClosed] returned by [Send] comes from. *)
Inductive closed_from : Type := FromActiveFlag | FromCanceledScope.

Inductive send_result : Type :=
| SendOk
| SendEncoderError
| SendErrClosed (from : closed_from)
| SendPanic            (* send on the closed queue *)
| SendBlocked.         (* no branch of the select is ready *)

(** [Send].  [encoded] is what the encoder returned; [prefer_done] is the
    choice the [select] makes when both of its branches are ready. *)
Definition Send (c : Conn) (encoded : option bytes) (prefer_done : bool)
  : send_result * Conn :=
  if negb (IsActive c) then (SendErrClosed FromActiveFlag, c)
  else
    match encoded with
    | None => (SendEncoderError, c)
    | Some buf =>
        let done_ready := done c in
        let send_ready :=
          sendCh_closed c || (Z.of_nat (length (sendCh c)) <? sendCh_cap) in
        let enqueue :=
          if sendCh_closed c then (SendPanic, c)
          else
            (SendOk,
             {| IdleTimeout := IdleTimeout c; active := active c; last := last c;
                started := started c; closing := closing c; done := done c;
                closed := closed c; sendCh := sendCh c ++ [buf];
                sendCh_closed := sendCh_closed c |}) in
        match done_ready, send_ready with
        | true, true =>
            if prefer_done then (SendErrClosed FromCanceledScope, c) else enqueue
        | true, false => (SendErrClosed FromCanceledScope, c)
        | false, true => enqueue
        | false, false => (SendBlocked, c)
        end
    end.

(** What can happen to a connection. *)
Inductive event : Type :=
| EStart (now : Time)
| EClose
| ECancel                                  (* the parent scope is canceled *)
| EMainLoopDone
| ETouch (now : Time)                      (* Recv *)
| EWrite (now : Time)
| ESend (encoded : option bytes) (prefer_done : bool).

Definition step (c : Conn) (e : event) : Conn :=
  match e with
  | EStart now => Start c now
  | EClose => Close c
  | ECancel => Cancel c
  | EMainLoopDone => mainLoop_done c
  | ETouch now => Touch c now
  | EWrite now => writeLoop_step c now
  | ESend enc pd => snd (Send c enc pd)
  end.

Definition run (c : Conn) (es : list event) : Conn := fold_left step es c.

(** The idle branch of [mainLoop]'s select, at the instant [now]: whether
    the idle hook is dispatched, and the new [idleNotified]. *)
Definition mainLoop_idle (c : Conn) (now : Time) (idleNotified : bool)
  : bool * bool :=
  let last := Unix (last c) 0 in
  if Since now last >? IdleTimeout c then
    if negb idleNotified then (true, true) else (false, idleNotified)
  else (false, false).

(** The same branch, had it read the timestamp the way [LastActive]
    does. *)
Definition idle_by_LastActive (c : Conn) (now : Time) (idleNotified : bool)
  : bool * bool :=
  if Since now (LastActive c) >? IdleTimeout c then
    if negb idleNotified then (true, true) else (false, idleNotified)
  else (false, false).

(** Once [Start] has run, the flag is set. *)
Definition started_active (c : Conn) : Prop :=
  started c = true -> active c = true.

End Conn.

(** ** The datagram server and its reaper ([internal/boot/udp], [UDPSession]) *)

Module Udp.

Import Time.

(** [udpKey]: the 16-byte address and the port. *)
Definition udpKey : Type := (N * N)%type.

(** The lines of [Server.Listen] that choose the reaper's idle period from
    [cfg.IdleTimeout]. *)
Definition Listen_idleTimeout (cfgIdleTimeout : Duration) : Duration :=
  let idleTimeout := cfgIdleTimeout in
  if idleTimeout >? 0 then 5 * Minute else idleTimeout.

(** [Server.reaper(idle)] creates its ticker first: the period, or [None]
    for the panic of [time.NewTicker]. *)
Definition reaper_ticker (idle : Duration) : option Duration :=
  NewTicker (Z.quot idle 2).

(** [UDPSession.Reaper(idle)] at the instant [now]: the connections kept in
    the map, and the connections deleted and closed. *)
Definition reaped (idle : Duration) (now : Time) (uc : Conn.Conn) : bool :=
  Sub now (Conn.LastActive uc) >? idle.

Definition Reaper (idle : Duration) (now : Time)
    (connMap : gmap udpKey Conn.Conn)
  : gmap udpKey Conn.Conn * gmap udpKey Conn.Conn :=
  (filter (fun kv => reaped idle now kv.2 = false) connMap,
   Conn.Close <$> filter (fun kv => reaped idle now kv.2 = true) connMap).

End Udp.

(** ** The scenarios of the specification *)

(** The specification's scenario: per connection rate 10 and burst 20,
    globally rate 100 and burst 200.  The world counts the calls of [next]
    and of the [limit] handler. *)
Module RateLimitScenario.

Import RateLimit.

Definition World : Type := (Limiter * (nat * nat))%type.

Definition count_next : World -> World :=
  fun '(l, (n, m)) => (l, (S n, m)).

Definition count_limited : Chain.Handler World string :=
  fun _ _ '(l, (n, m)) => (l, (n, S m)).

Definition handler : Chain.Handler World string :=
  RateLimitHandler (fun id => id) fst (fun l '(_, c) => (l, c)) 10 20
    (Some count_limited).

(** The first 25 messages arrive at 50 ms, the following ones at
    1050 ms. *)
Definition clk (n : nat) : Z :=
  if (n <=? 75)%nat then 50000000 else 1050000000.

(** The message hook at the end of the chain. *)
Definition terminal : Chain.Handler World string :=
  fun _ _ => count_next.

Definition message : World -> World :=
  Chain.Handle [handler; terminal] (Some "conn-1"%string).

Definition start : World := (new_limiter clk 100 200, (O, O)).

End RateLimitScenario.

(** The specification's router scenario, as far as the code gets: a
    router with the separator [/], a cache and the NotFound chain [NF];
    the group [api]; the route [/] of the root group with the handler
    [H1].  A handler value is its name; called, it writes its name to the
    trace and calls [next]. *)
Module RouterScenario.

Import Router.

Local Open Scope string_scope.

Definition World : Type := (Router string * list string)%type.

Definition call (name : string) : Chain.Handler World string :=
  fun _ next '(r, trace) => next (r, (trace ++ [name])%list).

Definition outer_next : World -> World :=
  fun '(r, trace) => (r, (trace ++ ["next"])%list).

(** The context carries the path; an empty one is no path. *)
Definition resolver (ctx : string) (w : World) : (string * bool) * World :=
  ((ctx, Strings.nonempty ctx), w).

Definition set_router (r : Router string) (w : World) : World := (r, w.2).

Definition setup : list (op (H := string)) :=
  [OLru 16; ONotFound ["NF"]; OGroup 0 "api"; OHandle 0 "/" ["H1"]].

(** The router after the set-up, had every call returned ([NewRouter]
    otherwise). *)
Definition router : Router string :=
  match run_ops 1 (NewRouter "/") setup with
  | Returns r => r
  | _ => NewRouter "/"
  end.

Definition handle (path : string) : run (list string) :=
  match RouterHandler call fst set_router resolver path outer_next (router, []) with
  | Returns w => Returns w.2
  | Panics => Panics
  | Blocks => Blocks
  | Spins => Spins
  end.

End RouterScenario.

(** * Properties *)

(** ** Machine integers *)

Lemma wrap64_id (x : Z) : in_int64 x -> wrap64 x = x.
Proof.
  unfold in_int64, wrap64. intros H.
  rewrite Z.mod_small by lia. lia.
Qed.

Lemma u64_id (x : Z) : 0 <= x < 2 ^ 64 -> u64 x = x.
Proof. unfold u64. intros. now rewrite Z.mod_small. Qed.

Lemma wrap64_range (x : Z) : in_int64 (wrap64 x).
Proof.
  unfold in_int64, wrap64.
  pose proof (Z.mod_pos_bound (x + 2 ^ 63) (2 ^ 64) ltac:(lia)). lia.
Qed.

(** [int(frameLen)] after [frameLen += uint64(lengthAdjustment)]: the
    detour through [uint64] is the signed sum reduced to 64 bits. *)
Lemma wrap64_u64_add (v a : Z) : wrap64 (u64 (v + u64 a)) = wrap64 (v + a).
Proof.
  unfold wrap64, u64.
  rewrite Z.add_mod_idemp_r by lia.
  rewrite Z.add_mod_idemp_l by lia. done.
Qed.

(** ** Loop lemmas shared by the framers *)

Section FrameLoop.

Variable body : bytes -> iter.

Lemma frame_loop_acc (fuel : nat) (acc : list bytes) (buf : bytes) :
  frame_loop body fuel acc buf =
  match frame_loop body fuel [] buf with
  | Some (Returned fs r e) => Some (Returned (acc ++ fs) r e)
  | o => o
  end.
Proof.
  revert acc buf. induction fuel as [|n IH]; intros acc buf; simpl; [done|].
  destruct (body buf) as [f rest| |e|]; simpl.
  - rewrite (IH (acc ++ [f])), (IH [f]).
    destruct (frame_loop body n [] rest) as [[fs r e|]|]; simpl; try done.
    by rewrite <- app_assoc.
  - by rewrite app_nil_r.
  - by rewrite app_nil_r.
  - done.
Qed.

Lemma frame_loop_more (fuel : nat) (acc : list bytes) (buf : bytes) (o : outcome) :
  frame_loop body fuel acc buf = Some o ->
  forall k : nat, frame_loop body (fuel + k) acc buf = Some o.
Proof.
  revert acc buf. induction fuel as [|n IH]; intros acc buf; simpl; [done|].
  intros H k. destruct (body buf); try done. by apply IH.
Qed.

Hypothesis Hstable : prefix_stable body.
Hypothesis Hsuffix : rest_is_suffix body.

Lemma frame_loop_split (fuel : nat) (acc : list bytes) (b x : bytes)
    (fs : list bytes) (r : bytes) :
  frame_loop body fuel acc (b ++ x) = Some (Returned fs r None) ->
  exists fs1 r1,
    frame_loop body fuel acc b = Some (Returned fs1 r1 None) /\
    frame_loop body fuel fs1 (r1 ++ x) = Some (Returned fs r None).
Proof.
  revert acc b. induction fuel as [|n IH]; intros acc b; [done|].
  intros H. pose proof (Hstable b x) as Hs.
  assert (Hbreak : body b = Break ->
    exists fs1 r1, frame_loop body (S n) acc b = Some (Returned fs1 r1 None) /\
      frame_loop body (S n) fs1 (r1 ++ x) = Some (Returned fs r None)).
  { intros Hb. exists acc, b. split; [|done]. simpl. by rewrite Hb. }
  simpl in H. destruct (body (b ++ x)) as [f r'| |e|] eqn:Hbx; try done.
  - destruct Hs as [Hb|(r0 & Hb & ->)]; [by apply Hbreak|].
    destruct (IH _ _ H) as (fs1 & r1 & H1 & H2).
    exists fs1, r1. split.
    + simpl. by rewrite Hb.
    + replace (S n) with (n + 1)%nat by lia. by apply frame_loop_more.
  - by apply Hbreak.
Qed.

Lemma frame_loop_stuck (b f : bytes) :
  body b = Emit f b ->
  forall (fuel : nat) (acc : list bytes), frame_loop body fuel acc b = None.
Proof.
  intros He fuel. induction fuel as [|n IH]; intros acc; [done|].
  simpl. rewrite He. apply IH.
Qed.

Lemma returns_break_nil (fuel : nat) (acc fs : list bytes) (b r : bytes) :
  frame_loop body fuel acc b = Some (Returned fs r None) ->
  body [] = Break.
Proof.
  intros H. destruct fuel as [|n]; [done|]. simpl in H.
  pose proof (Hstable [] b) as Hs. simpl in Hs.
  destruct (body b) as [f r'| |e|] eqn:Hb; try done.
  destruct Hs as [Hs|(r0 & Hs & ->)]; [done|].
  destruct (Hsuffix _ _ _ Hs) as [k ->]. rewrite drop_nil in *. simpl in *.
  by rewrite (frame_loop_stuck _ _ Hb) in H.
Qed.

(** Feeding the chunks one by one, carrying the remainder, gives what one
    call on the whole stream gives, whenever that call returns without an
    error. *)
Lemma recv_all_frame_loop (fuel : nat) (chunks : list bytes) (carry : bytes)
    (fs : list bytes) (r : bytes) :
  body carry = Break ->
  frame_loop body fuel [] (carry ++ concat chunks) = Some (Returned fs r None) ->
  recv_all (frame_loop body fuel []) carry chunks = Fed fs r.
Proof.
  revert carry fs r. induction chunks as [|c cs IH]; intros carry fs r Hc H.
  - simpl in *. rewrite app_nil_r in H.
    destruct fuel; simpl in H; [done|]. rewrite Hc in H. by simplify_eq.
  - simpl in H. rewrite app_assoc in H.
    destruct (frame_loop_split _ _ _ _ _ _ H) as (fs1 & r1 & H1 & H2).
    rewrite frame_loop_acc in H2.
    destruct (frame_loop body fuel [] (r1 ++ concat cs))
      as [[fs2 r2 e2|]|] eqn:H3; simplify_eq.
    assert (Hr1 : body r1 = Break).
    { clear -H1. revert H1. generalize (@nil bytes) as acc. generalize (carry ++ c) as b.
      induction fuel as [|n IHn]; intros b acc H1; [done|].
      simpl in H1. destruct (body b) eqn:Hb; simplify_eq; eauto. }
    simpl. unfold Recv. rewrite H1. by rewrite (IH _ _ _ Hr1 H3).
Qed.

End FrameLoop.

(** ** Slices of an extended buffer *)

Lemma len_app (b x : bytes) : len (b ++ x) = len b + len x.
Proof. unfold len. rewrite length_app. lia. Qed.

Lemma len_nonneg (b : bytes) : 0 <= len b.
Proof. unfold len. lia. Qed.

Lemma slice_app_l (b x : bytes) (lo hi : Z) (f : bytes) :
  slice (b ++ x) lo hi = Some f -> hi <= len b -> slice b lo hi = Some f.
Proof.
  unfold slice. rewrite len_app. intros H Hhi.
  destruct (0 <=? lo) eqn:H0, (lo <=? hi) eqn:H1; simpl in *; try done.
  destruct (hi <=? len b + len x) eqn:H2; simplify_eq.
  apply Z.leb_le in H0, H1. apply Z.leb_le in Hhi as Hhi'. rewrite Hhi'.
  f_equal. unfold len in *.
  rewrite drop_app_le by lia. rewrite take_app_le; [done|].
  rewrite length_drop. lia.
Qed.

Lemma slice_from_app_l (b x : bytes) (lo : Z) (r' : bytes) :
  slice_from (b ++ x) lo = Some r' -> lo <= len b ->
  exists r, slice_from b lo = Some r /\ r' = r ++ x.
Proof.
  unfold slice_from. rewrite len_app. intros H Hlo.
  destruct (0 <=? lo) eqn:H0; simpl in *; [|done].
  destruct (lo <=? len b + len x); simplify_eq.
  apply Z.leb_le in H0. apply Z.leb_le in Hlo as Hlo'. rewrite Hlo'.
  eexists; split; [done|].
  unfold len in *. rewrite drop_app_le by lia. done.
Qed.

Lemma slice_Some (b : bytes) (lo hi : Z) (f : bytes) :
  slice b lo hi = Some f ->
  0 <= lo /\ lo <= hi /\ hi <= len b /\
  f = take (Z.to_nat (hi - lo)) (drop (Z.to_nat lo) b).
Proof.
  unfold slice. intros H.
  destruct (0 <=? lo) eqn:H0, (lo <=? hi) eqn:H1, (hi <=? len b) eqn:H2;
    simpl in H; simplify_eq.
  apply Z.leb_le in H0, H1, H2. done.
Qed.

Lemma slice_from_Some (b : bytes) (lo : Z) (r : bytes) :
  slice_from b lo = Some r ->
  0 <= lo /\ lo <= len b /\ r = drop (Z.to_nat lo) b.
Proof.
  unfold slice_from. intros H.
  destruct (0 <=? lo) eqn:H0, (lo <=? len b) eqn:H2; simpl in H; simplify_eq.
  apply Z.leb_le in H0, H2. done.
Qed.

(** ** The framers' loop bodies look at a prefix only *)

Lemma rest_is_suffix_fixed (length : Z) : rest_is_suffix (fixed_body length).
Proof.
  intros b f r. unfold fixed_body.
  destruct (length <=? len b); [|done].
  destruct (slice_to b length); [|done].
  destruct (slice_from b length) as [r0|] eqn:Hr; [|done].
  intros [= <- <-]. apply slice_from_Some in Hr as (_ & _ & ->). eauto.
Qed.

Lemma prefix_stable_fixed (length : Z) : prefix_stable (fixed_body length).
Proof.
  intros b x. unfold fixed_body. rewrite len_app.
  pose proof (len_nonneg x) as Hx.
  destruct (length <=? len b + len x) eqn:Hle.
  - destruct (slice_to (b ++ x) length) as [f|] eqn:Hf; [|done].
    destruct (slice_from (b ++ x) length) as [r'|] eqn:Hr; [|done].
    destruct (length <=? len b) eqn:Hlb; [|by left].
    apply Z.leb_le in Hlb. right.
    unfold slice_to in *. rewrite (slice_app_l _ _ _ _ _ Hf Hlb).
    destruct (slice_from_app_l _ _ _ _ Hr Hlb) as (r & -> & ->). eauto.
  - apply Z.leb_gt in Hle.
    destruct (length <=? len b) eqn:Hlb; [|done].
    apply Z.leb_le in Hlb. lia.
Qed.

Lemma rest_is_suffix_length_field (o w a strip : Z) (order : ByteOrder) :
  rest_is_suffix (length_field_body o w a strip order).
Proof.
  intros b f r. unfold length_field_body.
  repeat match goal with
         | |- context [if ?c then _ else _] => destruct c
         | |- context [match slice ?x ?y ?z with _ => _ end] => destruct (slice x y z)
         end; try done;
  match goal with
  | |- context [slice_from ?x ?y] => destruct (slice_from x y) eqn:Hr
  end; try done;
  intros [= <- <-]; apply slice_from_Some in Hr as (_ & _ & ->); eauto.
Qed.

Lemma prefix_stable_length_field (o w a strip : Z) (order : ByteOrder) :
  prefix_stable (length_field_body o w a strip order).
Proof.
  intros b x. unfold length_field_body. rewrite len_app.
  pose proof (len_nonneg x) as Hx.
  set (hdr := wrap64 (o + w)).
  destruct (len b + len x <? hdr) eqn:Hh.
  { apply Z.ltb_lt in Hh. destruct (len b <? hdr) eqn:Hb; [done|].
    apply Z.ltb_ge in Hb. lia. }
  destruct (len b <? hdr) eqn:Hb.
  { repeat case_match; auto. }
  apply Z.ltb_ge in Hb.
  destruct (slice (b ++ x) o hdr) as [fb|] eqn:Hfb; [|done].
  rewrite (slice_app_l _ _ _ _ _ Hfb Hb).
  set (field := if w =? 1 then _ else _). destruct field as [v|]; [|done].
  set (frameEnd := wrap64 (hdr + wrap64 (u64 (v + u64 a)))).
  destruct (len b + len x <? frameEnd) eqn:He.
  { apply Z.ltb_lt in He. destruct (len b <? frameEnd) eqn:Hbe; [done|].
    apply Z.ltb_ge in Hbe. lia. }
  destruct (slice (b ++ x) strip frameEnd) as [f|] eqn:Hf; [|done].
  destruct (slice_from (b ++ x) frameEnd) as [r'|] eqn:Hr; [|done].
  destruct (len b <? frameEnd) eqn:Hbe; [by left|].
  apply Z.ltb_ge in Hbe. right.
  rewrite (slice_app_l _ _ _ _ _ Hf Hbe).
  destruct (slice_from_app_l _ _ _ _ Hr Hbe) as (r & -> & ->). eauto.
Qed.

(** *** [bytes.Index] on an extended buffer *)

Lemma has_prefix_length (sep s : bytes) :
  has_prefix sep s = true -> (length sep <= length s)%nat.
Proof.
  revert s. induction sep as [|c sep IH]; intros [|d s]; simpl; try done; try lia.
  intros [_ H]%andb_prop. apply IH in H. lia.
Qed.

Lemma has_prefix_app (sep s x : bytes) :
  has_prefix sep s = true -> has_prefix sep (s ++ x) = true.
Proof.
  revert s. induction sep as [|c sep IH]; intros [|d s]; simpl; try done.
  intros [-> H]%andb_prop. simpl. by apply IH.
Qed.

Lemma has_prefix_app_short (sep s x : bytes) :
  has_prefix sep s = false -> has_prefix sep (s ++ x) = true ->
  (length s < length sep)%nat.
Proof.
  revert s. induction sep as [|c sep IH]; intros [|d s]; simpl; try done; try lia.
  intros H1 H2. apply andb_prop in H2 as [Hcd H2]. rewrite Hcd in H1. simpl in H1.
  specialize (IH _ H1 H2). lia.
Qed.

Lemma index_nat_bound (s sep : bytes) (i : nat) :
  index_nat s sep = Some i -> (i + length sep <= length s)%nat.
Proof.
  revert i. induction s as [|c s IH]; intros i; simpl.
  - destruct (has_prefix sep []) eqn:Hp; [|done].
    intros [= <-]. apply has_prefix_length in Hp. simpl in *. lia.
  - destruct (has_prefix sep (c :: s)) eqn:Hp.
    + intros [= <-]. apply has_prefix_length in Hp. simpl in *. lia.
    + destruct (index_nat s sep) as [j|]; [|done]. simpl.
      intros [= <-]. specialize (IH _ eq_refl). lia.
Qed.

Lemma index_nat_app (b x sep : bytes) :
  match index_nat (b ++ x) sep with
  | Some i => index_nat b sep = Some i \/ index_nat b sep = None
  | None => index_nat b sep = None
  end.
Proof.
  induction b as [|c b IH].
  - destruct sep as [|d sep]; simpl.
    + destruct x; simpl; auto.
    + destruct (index_nat x (d :: sep)); auto.
  - simpl. destruct (has_prefix sep (c :: b)) eqn:Hp.
    + change (c :: b ++ x) with ((c :: b) ++ x).
      rewrite (has_prefix_app _ _ _ Hp). auto.
    + destruct (has_prefix sep (c :: b ++ x)) eqn:Hpx.
      * right. destruct (index_nat b sep) as [j|] eqn:Hj; [|done].
        apply index_nat_bound in Hj.
        apply (has_prefix_app_short _ (c :: b)) in Hpx; [|done].
        simpl in Hpx. lia.
      * destruct (index_nat (b ++ x) sep) as [i|]; simpl.
        -- destruct IH as [-> | ->]; auto.
        -- by rewrite IH.
Qed.

Lemma rest_is_suffix_delimiter (delim : bytes) :
  rest_is_suffix (delimiter_body delim).
Proof.
  intros b f r. unfold delimiter_body.
  destruct (Index b delim =? -1); [done|].
  destruct (slice_to b _); [|done].
  destruct (slice_from b _) as [r0|] eqn:Hr; [|done].
  intros [= <- <-]. apply slice_from_Some in Hr as (_ & _ & ->). eauto.
Qed.

Lemma prefix_stable_delimiter (delim : bytes) :
  prefix_stable (delimiter_body delim).
Proof.
  intros b x. unfold delimiter_body, Index.
  pose proof (index_nat_app b x delim) as Hi.
  destruct (index_nat (b ++ x) delim) as [i|] eqn:Hbx.
  - replace (Z.of_nat i =? -1) with false by (symmetry; apply Z.eqb_neq; lia).
    destruct (slice_to (b ++ x) (Z.of_nat i)) as [f|] eqn:Hf; [|done].
    destruct (slice_from (b ++ x) _) as [r'|] eqn:Hr; [|done].
    destruct Hi as [Hi|Hi]; rewrite Hi; [|by left].
    right. replace (Z.of_nat i =? -1) with false by (symmetry; apply Z.eqb_neq; lia).
    apply index_nat_bound in Hi.
    assert (H1 : Z.of_nat i <= len b) by (unfold len; lia).
    assert (H2 : Z.of_nat i + len delim <= len b) by (unfold len; lia).
    unfold slice_to in *. rewrite (slice_app_l _ _ _ _ _ Hf H1).
    destruct (slice_from_app_l _ _ _ _ Hr H2) as (r & -> & ->). eauto.
  - rewrite Hi. done.
Qed.

(** ** Termination of the loop *)

Section FrameLoopTotal.

Variable body : bytes -> iter.

(** Every emitted frame consumes at least one byte, and no pass panics. *)
Hypothesis Hprogress :
  forall b f r, body b = Emit f r -> (length r < length b)%nat.
Hypothesis Hsafe : forall b, body b <> Panic.

Lemma frame_loop_total (b : bytes) (acc : list bytes) :
  exists fs r e,
    frame_loop body (S (length b)) acc b = Some (Returned fs r e).
Proof.
  remember (length b) as n eqn:Hn.
  assert (Hle : (length b <= n)%nat) by lia. clear Hn.
  revert b acc Hle. induction n as [|n IH]; intros b acc Hle.
  - simpl. destruct (body b) as [f r| |e|] eqn:Hb; eauto.
    + apply Hprogress in Hb. lia.
    + by apply Hsafe in Hb.
  - change (frame_loop body (S (S n)) acc b) with
      (match body b with
       | Emit f rest => frame_loop body (S n) (acc ++ [f]) rest
       | Break => Some (Returned acc b None)
       | Fail e => Some (Returned acc [] (Some e))
       | Panic => Some Panicked
       end).
    destruct (body b) as [f r| |e|] eqn:Hb; eauto.
    + apply Hprogress in Hb. apply IH. lia.
    + by apply Hsafe in Hb.
Qed.

End FrameLoopTotal.

Lemma byte_val_bound (c : Byte.byte) : 0 <= byte_val c < 256.
Proof.
  unfold byte_val. pose proof (Byte.to_N_bounded c). lia.
Qed.

Lemma be_uint_bound (bs : bytes) : 0 <= be_uint bs < 256 ^ len bs.
Proof.
  unfold be_uint.
  assert (H : forall acc, 0 <= acc ->
    0 <= fold_left (fun acc b => acc * 256 + byte_val b) bs acc
      < (acc + 1) * 256 ^ len bs).
  { induction bs as [|c bs IH]; intros acc Hacc; simpl.
    - unfold len; simpl. lia.
    - pose proof (byte_val_bound c) as Hc.
      specialize (IH (acc * 256 + byte_val c) ltac:(lia)).
      replace (len (c :: bs)) with (1 + len bs) by (unfold len; simpl length; lia).
      rewrite Z.pow_add_r by (pose proof (len_nonneg bs); lia).
      change (256 ^ 1) with 256.
      pose proof (Z.pow_pos_nonneg 256 (len bs) ltac:(lia) (len_nonneg bs)).
      nia. }
  specialize (H 0 ltac:(lia)). lia.
Qed.

Lemma order_uint_bound (order : ByteOrder) (bs : bytes) :
  0 <= order_uint order bs < 256 ^ len bs.
Proof.
  destruct order; simpl; [apply be_uint_bound|].
  replace (len bs) with (len (rev bs)) by (unfold len; by rewrite length_rev).
  apply be_uint_bound.
Qed.

Lemma slice_length (b : bytes) (lo hi : Z) (f : bytes) :
  slice b lo hi = Some f -> len f = hi - lo.
Proof.
  intros (H0 & H1 & H2 & ->)%slice_Some. unfold len in *.
  rewrite length_take, length_drop. lia.
Qed.

(** ** Each bundled framer that loops is a [frame_loop] of a stable body *)

Lemma framer_frame_loop (f : bundled) (fuel : nat) (buf : bytes) :
  f <> Raw -> framer f fuel buf = frame_loop (body_of f) fuel [] buf.
Proof. by destruct f. Qed.

Lemma body_of_stable (f : bundled) : prefix_stable (body_of f).
Proof.
  destruct f; simpl.
  - by intros b x.
  - apply prefix_stable_delimiter.
  - apply prefix_stable_fixed.
  - apply prefix_stable_length_field.
Qed.

Lemma body_of_suffix (f : bundled) : rest_is_suffix (body_of f).
Proof.
  destruct f; simpl.
  - by intros b x r.
  - apply rest_is_suffix_delimiter.
  - apply rest_is_suffix_fixed.
  - apply rest_is_suffix_length_field.
Qed.

Lemma recv_all_ext (f g : bytes -> option outcome) :
  (forall b, f b = g b) ->
  forall chunks carry, recv_all f carry chunks = recv_all g carry chunks.
Proof.
  intros Hfg chunks. induction chunks as [|c cs IH]; intros carry; [done|].
  simpl. unfold Recv. rewrite Hfg.
  destruct (g (carry ++ c)) as [[fs r [e|]|]|]; try done; by rewrite IH.
Qed.

Lemma recv_all_raw (fuel : nat) (chunks : list bytes) :
  recv_all (framer Raw fuel) [] chunks = Fed chunks [].
Proof.
  induction chunks as [|c cs IH]; [done|].
  simpl. unfold Recv. simpl. by rewrite IH.
Qed.

(** ** Framer composability *)

(** C3 (as amended).  Take any chunks and let [B] be their concatenation.
    Whenever a call of [DelimiterFramer], [FixedLengthFramer] or
    [LengthFieldFramer] on [B] returns frames and a remainder without an
    error, feeding the chunks to [Recv] one by one, each call seeing the
    previous remainder in front of the new chunk, dispatches the same frames
    in the same order and leaves the same remainder.  [RawFramer] has no
    remainder: it turns [B] into the single frame [B], and fed chunk by
    chunk it dispatches the chunks themselves, one frame each. *)
Theorem framer_composability (f : bundled) (fuel : nat) (chunks : list bytes)
    (fs : list bytes) (r : bytes) :
  framer f fuel (concat chunks) = Some (Returned fs r None) ->
  match f with
  | Raw =>
      fs = [concat chunks] /\ r = [] /\
      recv_all (framer Raw fuel) [] chunks = Fed chunks []
  | _ => recv_all (framer f fuel) [] chunks = Fed fs r
  end.
Proof.
  intros H.
  assert (Hloop : f <> Raw -> recv_all (framer f fuel) [] chunks = Fed fs r).
  { intros Hf. rewrite (framer_frame_loop _ _ _ Hf) in H.
    rewrite (recv_all_ext _ (frame_loop (body_of f) fuel []))
      by (intros b; by apply framer_frame_loop).
    apply recv_all_frame_loop; [apply body_of_stable| |done].
    eapply returns_break_nil; [apply body_of_stable|apply body_of_suffix|done]. }
  destruct f; try (by apply Hloop).
  simpl in H. unfold RawFramer in H. simplify_eq.
  split_and!; [done..|apply recv_all_raw].
Qed.

Lemma framer_composability_witness :
  let chunks := [[x41; x42; x43; x44]; [x45; x46; x47; x48; x49; x4a; x4b]] in
  framer (Fixed 3) 10 (concat chunks)
    = Some (Returned [[x41; x42; x43]; [x44; x45; x46]; [x47; x48; x49]]
              [x4a; x4b] None)
  /\ recv_all (framer (Fixed 3) 10) [] chunks
    = Fed [[x41; x42; x43]; [x44; x45; x46]; [x47; x48; x49]] [x4a; x4b].
Proof.
  split; [reflexivity|].
  exact (framer_composability (Fixed 3) 10
           [[x41; x42; x43; x44]; [x45; x46; x47; x48; x49; x4a; x4b]]
           _ _ eq_refl).
Defined.

(** The specification's framing scenarios, fed in two chunks each. *)
Example line_framing_scenario :
  recv_all (LineFramer 10) []
    [String.list_byte_of_string "PING
PONG
PAR"; String.list_byte_of_string "TIAL
"]
  = Fed [String.list_byte_of_string "PING"; String.list_byte_of_string "PONG";
         String.list_byte_of_string "PARTIAL"] [].
Proof. vm_compute. reflexivity. Qed.

Example length_field_scenario :
  recv_all (LengthFieldFramer 0 4 0 4 BigEndian 10) []
    [[x00; x00; x00; x05; x48; x65; x6c; x6c; x6f; x00; x00; x00; x03; x41; x42];
     [x43]]
  = Fed [[x48; x65; x6c; x6c; x6f]; [x41; x42; x43]] [].
Proof. vm_compute. reflexivity. Qed.

(** C3 as stated fails for the pass-through framer: two chunks give two
    frames, their concatenation gives one. *)
Lemma framer_composability_raw_fails :
  ~ (forall (f : bundled) (fuel : nat) (chunks : list bytes)
            (fs : list bytes) (r : bytes),
        framer f fuel (concat chunks) = Some (Returned fs r None) ->
        recv_all (framer f fuel) [] chunks = Fed fs r).
Proof.
  intros H.
  specialize (H Raw 1%nat [[x41]; [x42]] [[x41; x42]] [] eq_refl).
  discriminate H.
Qed.

(** ** Totality of the well-configured framers *)

Lemma slice_ok (b : bytes) (lo hi : Z) :
  0 <= lo -> lo <= hi -> hi <= len b ->
  slice b lo hi = Some (take (Z.to_nat (hi - lo)) (drop (Z.to_nat lo) b)).
Proof.
  intros H0 H1 H2. unfold slice.
  apply Z.leb_le in H0, H1, H2. by rewrite H0, H1, H2.
Qed.

Lemma slice_from_ok (b : bytes) (lo : Z) :
  0 <= lo -> lo <= len b -> slice_from b lo = Some (drop (Z.to_nat lo) b).
Proof.
  intros H0 H1. unfold slice_from.
  apply Z.leb_le in H0, H1. by rewrite H0, H1.
Qed.

Lemma advances_fixed (length : Z) : 0 < length -> advances (fixed_body length).
Proof.
  intros Hl b. unfold fixed_body.
  destruct (length <=? len b) eqn:Hle; [|by left].
  apply Z.leb_le in Hle. right; right.
  unfold slice_to. rewrite slice_ok, slice_from_ok by lia.
  eexists _, length. split; [lia|done].
Qed.

Lemma Index_Some (b delim : bytes) :
  Index b delim <> -1 ->
  0 <= Index b delim /\ Index b delim + len delim <= len b.
Proof.
  unfold Index. destruct (index_nat b delim) as [i|] eqn:Hi; [|done].
  intros _. apply index_nat_bound in Hi. unfold len. lia.
Qed.

Lemma advances_delimiter (delim : bytes) :
  delim <> [] -> advances (delimiter_body delim).
Proof.
  intros Hd b. unfold delimiter_body.
  destruct (Index b delim =? -1) eqn:Hi; [by left|].
  apply Z.eqb_neq, Index_Some in Hi as [H0 H1].
  pose proof (len_nonneg delim).
  assert (1 <= len delim) by (destruct delim; [done|unfold len; simpl length; lia]).
  right; right. unfold slice_to. rewrite slice_ok, slice_from_ok by lia.
  eexists _, _. split; [|done]. lia.
Qed.

Lemma advances_length_field (o w a strip : Z) (order : ByteOrder) :
  well_configured (LengthField o w a strip order) ->
  advances (length_field_body o w a strip order).
Proof.
  intros (Ho & Hw & How & Hw8 & Hsup) b. unfold length_field_body.
  rewrite (wrap64_id (o + w)) by (unfold in_int64; lia).
  destruct (len b <? o + w) eqn:Hh; [by left|]. apply Z.ltb_ge in Hh.
  pose proof (slice_ok b o (o + w) Ho ltac:(lia) Hh) as Hfb.
  rewrite Hfb. set (fb := take _ _) in *.
  pose proof (slice_length _ _ _ _ Hfb) as Hlen.
  assert (Hfield : forall v : Z, w = 1 \/ w = 2 \/ w = 4 ->
    0 <= v < 2 ^ (8 * w) ->
    (let frameLen := u64 (v + u64 a) in
     let frameEnd := wrap64 (o + w + wrap64 frameLen) in
     if len b <? frameEnd then Break
     else match slice b strip frameEnd, slice_from b frameEnd with
          | Some frame, Some rest => Emit frame rest
          | _, _ => Panic
          end) = Break \/
    exists f E, 1 <= E <= len b /\
      (let frameLen := u64 (v + u64 a) in
       let frameEnd := wrap64 (o + w + wrap64 frameLen) in
       if len b <? frameEnd then Break
       else match slice b strip frameEnd, slice_from b frameEnd with
            | Some frame, Some rest => Emit frame rest
            | _, _ => Panic
            end) = Emit f (drop (Z.to_nat E) b)).
  { intros v Hsz Hv. destruct (Hsup Hsz) as (Hs & Hlow & Hmax). cbv zeta.
    rewrite wrap64_u64_add.
    rewrite (wrap64_id (v + a)) by (unfold in_int64; lia).
    rewrite (wrap64_id (o + w + (v + a))) by (unfold in_int64; lia).
    destruct (len b <? o + w + (v + a)) eqn:He; [by left|]. apply Z.ltb_ge in He.
    right. rewrite slice_ok, slice_from_ok by lia.
    eexists _, _. split; [|done]. lia. }
  cbv zeta in Hfield.
  assert (Hgo : forall v : Z, w = 1 \/ w = 2 \/ w = 4 ->
    0 <= v < 2 ^ (8 * w) ->
    forall P : iter -> Prop,
      P Break -> (forall f E, 1 <= E <= len b -> P (Emit f (drop (Z.to_nat E) b))) ->
      P (if len b <? wrap64 (o + w + wrap64 (u64 (v + u64 a))) then Break
         else match slice b strip (wrap64 (o + w + wrap64 (u64 (v + u64 a)))),
                    slice_from b (wrap64 (o + w + wrap64 (u64 (v + u64 a)))) with
              | Some frame, Some rest => Emit frame rest
              | _, _ => Panic
              end)).
  { intros v Hsz Hv P HB HE.
    destruct (Hfield v Hsz Hv) as [Hr|(f & E & HEb & Hr)]; rewrite Hr; auto. }
  clear Hfield.
  set (Q := fun i : iter => i = Break \/ (exists e, i = Fail e) \/
    exists f E, 1 <= E <= len b /\ i = Emit f (drop (Z.to_nat E) b)).
  assert (HQB : Q Break) by (by left).
  assert (HQE : forall f E, 1 <= E <= len b -> Q (Emit f (drop (Z.to_nat E) b))).
  { intros f E HE. right; right. eauto. }
  change (Q (let field := if w =? 1
                 then Some (match fb with c :: _ => byte_val c | [] => 0 end)
                 else if w =? 2 then Some (order_uint order fb)
                 else if w =? 4 then Some (order_uint order fb)
                 else if w =? 8 then Some (order_uint order fb) else None in
             match field with
             | None => Fail unsupported_size
             | Some v =>
                 let frameLen := u64 (v + u64 a) in
                 let frameEnd := wrap64 (o + w + wrap64 frameLen) in
                 if len b <? frameEnd then Break
                 else match slice b strip frameEnd, slice_from b frameEnd with
                      | Some frame, Some rest => Emit frame rest
                      | _, _ => Panic
                      end
             end)).
  cbv zeta.
  destruct (w =? 1) eqn:H1.
  { apply Z.eqb_eq in H1. apply Hgo; auto.
    destruct fb as [|c ?]; [lia|]. pose proof (byte_val_bound c).
    subst w. change (2 ^ (8 * 1)) with 256. lia. }
  assert (Hou : w = 2 \/ w = 4 -> 0 <= order_uint order fb < 2 ^ (8 * w)).
  { intros Hsz. pose proof (order_uint_bound order fb) as Hb.
    replace (len fb) with w in Hb by lia.
    destruct Hsz as [-> | ->]; simpl in Hb; simpl; lia. }
  destruct (w =? 2) eqn:H2.
  { apply Z.eqb_eq in H2. apply Hgo; auto. }
  destruct (w =? 4) eqn:H4.
  { apply Z.eqb_eq in H4. apply Hgo; auto. }
  destruct (w =? 8) eqn:H8; [apply Z.eqb_eq in H8; lia|].
  right; left. eauto.
Qed.

Lemma advances_total (body : bytes -> iter) (b : bytes) :
  advances body ->
  exists fs r e, frame_loop body (S (length b)) [] b = Some (Returned fs r e).
Proof.
  intros Hadv. apply frame_loop_total.
  - intros b' f r Hb. destruct (Hadv b') as [H|[[e H]|(f' & E & HE & H)]];
      rewrite H in Hb; simplify_eq.
    rewrite length_drop. unfold len in HE. lia.
  - intros b' Hb. destruct (Hadv b') as [H|[[e H]|(f' & E & HE & H)]];
      rewrite H in Hb; simplify_eq.
Qed.

(** A loop whose body never fails returns no error. *)
Lemma frame_loop_no_error (body : bytes -> iter) (fuel : nat)
    (acc fs : list bytes) (b r : bytes) (e : option string) :
  (forall b' msg, body b' <> Fail msg) ->
  frame_loop body fuel acc b = Some (Returned fs r e) -> e = None.
Proof.
  intros Hnf. revert acc b. induction fuel as [|n IH]; intros acc b; [done|].
  simpl. destruct (body b) as [f rest| |msg|] eqn:Hb; intros Hr.
  - by apply IH in Hr.
  - by simplify_eq.
  - by apply Hnf in Hb.
  - done.
Qed.

Lemma fixed_never_fails (length : Z) (b : bytes) (msg : string) :
  fixed_body length b <> Fail msg.
Proof. unfold fixed_body. by repeat case_match. Qed.

Lemma delimiter_never_fails (delim b : bytes) (msg : string) :
  delimiter_body delim b <> Fail msg.
Proof. unfold delimiter_body. by repeat case_match. Qed.

Lemma length_field_never_fails (o w a strip : Z) (order : ByteOrder)
    (b : bytes) (msg : string) :
  w = 1 \/ w = 2 \/ w = 4 \/ w = 8 ->
  length_field_body o w a strip order b <> Fail msg.
Proof.
  intros Hw. unfold length_field_body.
  destruct (len b <? _); [done|].
  destruct (slice b o _) as [fb|]; [|done].
  destruct Hw as [->|[->|[->| ->]]]; simpl; by repeat case_match.
Qed.




(** A zero fixed length, like an empty delimiter, keeps the loop running
    for ever. *)
Lemma fixed_zero_diverges (fuel : nat) (buf : bytes) :
  framer (Fixed 0) fuel buf = None.
Proof.
  simpl. unfold FixedLengthFramer. apply (frame_loop_stuck _ buf []).
  unfold fixed_body. pose proof (len_nonneg buf) as Hl.
  destruct (0 <=? len buf) eqn:H0; [|apply Z.leb_gt in H0; lia].
  unfold slice_to. rewrite slice_ok, slice_from_ok by lia. done.
Qed.

Lemma empty_delimiter_diverges (fuel : nat) (buf : bytes) :
  framer (Delimiter []) fuel buf = None.
Proof.
  simpl. unfold DelimiterFramer. apply (frame_loop_stuck _ buf []).
  unfold delimiter_body, Index.
  assert (index_nat buf [] = Some O) as -> by (by destruct buf).
  pose proof (len_nonneg buf) as Hl. simpl.
  unfold slice_to. rewrite slice_ok, slice_from_ok by (unfold len in *; simpl; lia).
  done.
Qed.

(** ** Outside the well-configured parameters a framer is not total *)

Lemma wrap64_spec (x : Z) :
  exists k : Z, wrap64 x = x + k * 2 ^ 64 /\ in_int64 (wrap64 x).
Proof.
  exists (- ((x + 2 ^ 63) / 2 ^ 64)). split; [|apply wrap64_range].
  unfold wrap64. rewrite Z.mod_eq by lia. lia.
Qed.

(** The packet end the framer computes is the sum of offset, width, length
    and adjustment, reduced to an [int]. *)
Lemma frameEnd_spec (o w a v : Z) :
  exists k : Z,
    wrap64 (o + w + wrap64 (u64 (v + u64 a))) = o + w + v + a + k * 2 ^ 64 /\
    in_int64 (wrap64 (o + w + wrap64 (u64 (v + u64 a)))).
Proof.
  rewrite wrap64_u64_add.
  destruct (wrap64_spec (v + a)) as (k1 & -> & _).
  destruct (wrap64_spec (o + w + (v + a + k1 * 2 ^ 64))) as (k2 & Hk & Hr).
  exists (k1 + k2). split; [lia|done].
Qed.

Lemma length_field_body_unfold (o w a strip : Z) (order : ByteOrder)
    (buf : bytes) :
  length_field_body o w a strip order buf =
  let hdr := wrap64 (o + w) in
  if len buf <? hdr then Break
  else
    match slice buf o hdr with
    | None => Panic
    | Some fieldBytes =>
        match read_field w order fieldBytes with
        | None => Fail unsupported_size
        | Some v =>
            cut strip buf (wrap64 (hdr + wrap64 (u64 (v + u64 a))))
        end
    end.
Proof. reflexivity. Qed.

Lemma len_replicate (n : nat) (c : Byte.byte) : len (replicate n c) = Z.of_nat n.
Proof. unfold len. by rewrite length_replicate. Qed.

Lemma slice_None (b : bytes) (lo hi : Z) :
  lo < 0 \/ hi < lo -> slice b lo hi = None.
Proof.
  intros Hbad. unfold slice.
  destruct (0 <=? lo) eqn:H0; [|done].
  destruct (lo <=? hi) eqn:H1; [|done].
  apply Z.leb_le in H0, H1. lia.
Qed.

Lemma cut_panics (strip : Z) (buf : bytes) (E : Z) :
  E <= len buf -> strip < 0 \/ E < strip -> cut strip buf E = Panic.
Proof.
  intros Hlen Hbad. unfold cut.
  replace (len buf <? E) with false by (symmetry; apply Z.ltb_ge; lia).
  by rewrite slice_None.
Qed.

Lemma cut_stuck (buf : bytes) : cut 0 buf 0 = Emit [] buf.
Proof.
  unfold cut. pose proof (len_nonneg buf).
  replace (len buf <? 0) with false by (symmetry; apply Z.ltb_ge; lia).
  rewrite slice_ok, slice_from_ok by lia. done.
Qed.

(** One pass on a probe reads the field of the probe. *)
Lemma probe_pass (o w a strip : Z) (order : ByteOrder) (fld pad : bytes)
    (v : Z) :
  0 <= o -> o + w < 2 ^ 63 -> len fld = w ->
  read_field w order fld = Some v ->
  length_field_body o w a strip order (probe o fld pad)
  = cut strip (probe o fld pad) (wrap64 (o + w + wrap64 (u64 (v + u64 a)))).
Proof.
  intros Ho How Hlen Hv. rewrite length_field_body_unfold. cbv zeta.
  pose proof (len_nonneg fld). pose proof (len_nonneg pad).
  rewrite (wrap64_id (o + w)) by (unfold in_int64; lia).
  assert (Hl : len (probe o fld pad) = o + w + len pad).
  { unfold probe. rewrite !len_app, len_replicate. lia. }
  replace (len (probe o fld pad) <? o + w) with false
    by (symmetry; apply Z.ltb_ge; lia).
  rewrite slice_ok by lia.
  assert (take (Z.to_nat (o + w - o)) (drop (Z.to_nat o) (probe o fld pad)) = fld)
    as ->.
  { unfold probe. rewrite drop_app_length' by (by rewrite length_replicate).
    rewrite take_app_length'; [done|]. unfold len in Hlen. lia. }
  by rewrite Hv.
Qed.

Lemma read_zero_field (w : Z) (order : ByteOrder) :
  supported w -> read_field w order (replicate (Z.to_nat w) x00) = Some 0.
Proof. intros [->|[->|[->| ->]]]; by destruct order. Qed.

Lemma read_full_field (w : Z) (order : ByteOrder) :
  w = 1 \/ w = 2 \/ w = 4 ->
  read_field w order (replicate (Z.to_nat w) xff) = Some (2 ^ (8 * w) - 1).
Proof. intros [->|[->| ->]]; by destruct order. Qed.

Lemma read_high_field (order : ByteOrder) :
  read_field 8 order (high_field order) = Some (2 ^ 63).
Proof. by destruct order. Qed.

Lemma pass_panics (body : bytes -> iter) (buf : bytes) :
  body buf = Panic -> frame_loop body 1 [] buf = Some Panicked.
Proof. intros Hb. simpl. by rewrite Hb. Qed.

(** A length field the parameters cannot cope with: a buffer on which the
    framer panics, or never returns. *)
Lemma length_field_breaks (o w a strip : Z) (order : ByteOrder) :
  in_int64 o -> in_int64 w -> in_int64 a ->
  ~ well_configured (LengthField o w a strip order) ->
  exists buf,
    length_field_body o w a strip order buf = Panic \/
    exists f, length_field_body o w a strip order buf = Emit f buf.
Proof.
  unfold in_int64. intros Ho Hw Ha Hnot.
  destruct (decide (0 <= o /\ 0 <= w /\ o + w < 2 ^ 63)) as [(Ho0 & Hw0 & How)|Hhdr].
  2:{ (* the header itself cannot be sliced *)
    exists (replicate (Z.to_nat (wrap64 (o + w))) x00). left.
    rewrite length_field_body_unfold. cbv zeta.
    destruct (wrap64_spec (o + w)) as (k & Hk & Hr). unfold in_int64 in Hr.
    replace (len _ <? wrap64 (o + w)) with false
      by (symmetry; apply Z.ltb_ge; rewrite len_replicate; lia).
    rewrite slice_None; [done|]. lia. }
  assert (Hprobe : forall fld pad v,
    len fld = w -> read_field w order fld = Some v ->
    let E := wrap64 (o + w + wrap64 (u64 (v + u64 a))) in
    E <= o + w + len pad ->
    (strip < 0 \/ E < strip) \/ (E = 0 /\ strip = 0) ->
    exists buf,
      length_field_body o w a strip order buf = Panic \/
      exists f, length_field_body o w a strip order buf = Emit f buf).
  { intros fld pad v Hlen Hv E HE Hbad. exists (probe o fld pad).
    rewrite (probe_pass o w a strip order fld pad v) by done. fold E.
    assert (Hl : len (probe o fld pad) = o + w + len pad).
    { unfold probe. rewrite !len_app, len_replicate. lia. }
    destruct Hbad as [Hbad|[HE0 ->]].
    - left. apply cut_panics; lia.
    - right. exists []. rewrite HE0. apply cut_stuck. }
  assert (Hzeros : len (replicate (Z.to_nat w) x00) = w)
    by (rewrite len_replicate; lia).
  assert (Hfull : len (replicate (Z.to_nat w) xff) = w)
    by (rewrite len_replicate; lia).
  destruct (decide (w = 8)) as [->|Hw8].
  { (* all 64 bits of the field count: some value makes the end negative *)
    destruct (frameEnd_spec o 8 a 0) as (k0 & Hk0 & Hr0).
    destruct (frameEnd_spec o 8 a (2 ^ 63)) as (k1 & Hk1 & Hr1).
    unfold in_int64 in Hr0, Hr1.
    destruct (decide (wrap64 (o + 8 + wrap64 (u64 (0 + u64 a))) < 0)) as [Hneg|Hpos].
    - apply (Hprobe (replicate (Z.to_nat 8) x00) [] 0 Hzeros
               (read_zero_field 8 order ltac:(unfold supported; lia)));
        unfold len; simpl length; lia.
    - apply (Hprobe (high_field order) [] (2 ^ 63)
               ltac:(by destruct order) (read_high_field order));
        unfold len; simpl length; lia. }
  destruct (decide (w = 1 \/ w = 2 \/ w = 4)) as [Hsz|Hother].
  2:{ exfalso. apply Hnot. simpl. split_and!; try done. }
  assert (Hinner : ~ (0 <= strip <= o + w + a /\ 1 <= o + w + a /\
                      o + w + a + 2 ^ (8 * w) <= 2 ^ 63)).
  { intros Hin. apply Hnot. simpl. split_and!; try done. }
  assert (HM : 2 ^ (8 * w) = 256 \/ 2 ^ (8 * w) = 65536 \/
               2 ^ (8 * w) = 4294967296).
  { destruct Hsz as [->|[->| ->]]; simpl; lia. }
  set (M := 2 ^ (8 * w)) in *.
  destruct (frameEnd_spec o w a 0) as (k0 & Hk0 & Hr0).
  destruct (frameEnd_spec o w a (M - 1)) as (k1 & Hk1 & Hr1).
  unfold in_int64 in Hr0, Hr1.
  pose proof (read_zero_field w order ltac:(unfold supported; lia)) as Hz.
  pose proof (read_full_field w order Hsz) as Hf. fold M in Hf.
  destruct (decide (o + w + a + M <= 2 ^ 63)) as [Hfit|Hover].
  - (* no wrap-around: the smallest packet end is at fault *)
    apply (Hprobe (replicate (Z.to_nat w) x00)
             (replicate (Z.to_nat (o + w + a - (o + w))) x00) 0 Hzeros Hz);
      rewrite ?len_replicate; lia.
  - (* the largest packet end, or already the smallest, wraps around *)
    destruct (decide (2 ^ 63 <= o + w + a)) as [Hbig|Hsmall].
    + apply (Hprobe (replicate (Z.to_nat w) x00) [] 0 Hzeros Hz);
        unfold len; simpl length; lia.
    + apply (Hprobe (replicate (Z.to_nat w) xff) [] (M - 1) Hfull Hf);
        unfold len; simpl length; lia.
Qed.

(** The parameters of [well_configured] are all there are: with any other
    parameters there is an input on which the framer panics or on which
    its loop never ends. *)
Lemma ill_configured_not_total (f : bundled) :
  int_parameters f -> ~ well_configured f ->
  exists buf,
    framer f 1 buf = Some Panicked \/ forall fuel, framer f fuel buf = None.
Proof.
  intros Hint Hnot. destruct f as [|delim|n|o w a strip order].
  - by destruct Hnot.
  - exists []. right. intros fuel.
    destruct delim; [apply empty_delimiter_diverges|by destruct Hnot].
  - simpl in Hnot. destruct (decide (n = 0)) as [->|Hn].
    + exists []. right. intros fuel. apply fixed_zero_diverges.
    + exists []. left. simpl. unfold FixedLengthFramer. apply pass_panics.
      unfold fixed_body.
      replace (n <=? len []) with true
        by (symmetry; apply Z.leb_le; unfold len; simpl; lia).
      unfold slice_to. by rewrite slice_None by lia.
  - destruct Hint as (Ho & Hw & Ha & _).
    destruct (length_field_breaks o w a strip order Ho Hw Ha Hnot)
      as (buf & [Hp|[f Hs]]); exists buf.
    + left. by apply pass_panics.
    + right. intros fuel. simpl. unfold LengthFieldFramer.
      by apply (frame_loop_stuck _ buf f).
Qed.

(** ** The length-field framer, pass by pass *)

Lemma frame_loop_emit (body : bytes -> iter) (fuel : nat) (buf f rest : bytes) :
  body buf = Emit f rest ->
  frame_loop body (S fuel) [] buf = prepend f (frame_loop body fuel [] rest).
Proof.
  intros Hb. simpl. rewrite Hb, frame_loop_acc.
  by destruct (frame_loop body fuel [] rest) as [[]|].
Qed.

Lemma field_value (w : Z) (order : ByteOrder) (fb : bytes) :
  supported w -> len fb = w ->
  (if w =? 1 then Some (match fb with c :: _ => byte_val c | [] => 0 end)
   else if w =? 2 then Some (order_uint order fb)
   else if w =? 4 then Some (order_uint order fb)
   else if w =? 8 then Some (order_uint order fb)
   else None) = Some (order_uint order fb).
Proof.
  intros [->|[->|[->| ->]]] Hl; simpl; try done.
  destruct fb as [|c [|d fb]]; unfold len in Hl; simpl in Hl; try lia.
  destruct order; simpl; unfold be_uint; simpl; done.
Qed.

Section LengthFieldPass.

Variables (o w a strip : Z) (order : ByteOrder) (buf : bytes).
Hypothesis Ho : 0 <= o.
Hypothesis Hw : 0 <= w.
Hypothesis How : o + w < 2 ^ 63.
Hypothesis Hhdr : o + w <= len buf.

(** The bytes of the length field and the end of the packet they
    announce. *)
Let fieldBytes : bytes := take (Z.to_nat w) (drop (Z.to_nat o) buf).
Let frameEnd : Z := o + w + order_uint order fieldBytes + a.

Lemma length_field_header :
  slice buf o (wrap64 (o + w)) = Some fieldBytes /\ len fieldBytes = w.
Proof.
  rewrite (wrap64_id (o + w)) by (unfold in_int64; lia).
  pose proof (slice_ok buf o (o + w) Ho ltac:(lia) Hhdr) as Hs.
  replace (o + w - o) with w in Hs by lia.
  split; [done|]. apply slice_length in Hs. unfold fieldBytes. lia.
Qed.

Lemma length_field_unsupported :
  ~ supported w ->
  length_field_body o w a strip order buf = Fail unsupported_size.
Proof.
  intros Hns. unfold length_field_body.
  destruct length_field_header as [Hs Hl]. rewrite Hs.
  rewrite (wrap64_id (o + w)) by (unfold in_int64; lia).
  destruct (len buf <? o + w) eqn:Hlt; [apply Z.ltb_lt in Hlt; lia|].
  unfold supported in Hns.
  destruct (w =? 1) eqn:H1; [apply Z.eqb_eq in H1; tauto|].
  destruct (w =? 2) eqn:H2; [apply Z.eqb_eq in H2; tauto|].
  destruct (w =? 4) eqn:H4; [apply Z.eqb_eq in H4; tauto|].
  destruct (w =? 8) eqn:H8; [apply Z.eqb_eq in H8; tauto|].
  done.
Qed.

Hypothesis Hsup : supported w.
Hypothesis Ha : in_int64 a.
Hypothesis Hlen : 0 <= order_uint order fieldBytes + a.
Hypothesis Hend : frameEnd < 2 ^ 63.

Lemma length_field_frameEnd :
  wrap64 (wrap64 (o + w) +
          wrap64 (u64 (order_uint order fieldBytes + u64 a))) = frameEnd.
Proof.
  unfold frameEnd in *. set (v := order_uint order fieldBytes) in *.
  rewrite (wrap64_id (o + w)) by (unfold in_int64; lia).
  assert (Hu : u64 (v + u64 a) = v + a).
  { unfold u64. rewrite Zplus_mod_idemp_r. apply Z.mod_small.
    unfold in_int64 in Ha. lia. }
  rewrite Hu. rewrite (wrap64_id (v + a)) by (unfold in_int64; lia).
  rewrite wrap64_id by (unfold in_int64; lia). lia.
Qed.

Lemma length_field_incomplete :
  len buf < frameEnd ->
  length_field_body o w a strip order buf = Break.
Proof.
  intros Hshort. unfold length_field_body.
  destruct length_field_header as [Hs Hl]. rewrite Hs.
  destruct (len buf <? wrap64 (o + w)); [done|].
  rewrite (field_value _ _ _ Hsup Hl). cbv zeta.
  rewrite length_field_frameEnd.
  apply Z.ltb_lt in Hshort. by rewrite Hshort.
Qed.

Lemma length_field_complete :
  frameEnd <= len buf -> 0 <= strip <= frameEnd ->
  length_field_body o w a strip order buf =
  Emit (take (Z.to_nat (frameEnd - strip)) (drop (Z.to_nat strip) buf))
       (drop (Z.to_nat frameEnd) buf).
Proof.
  intros Hfull Hstrip. unfold length_field_body.
  destruct length_field_header as [Hs Hl]. rewrite Hs.
  rewrite (wrap64_id (o + w)) at 1 by (unfold in_int64; lia).
  destruct (len buf <? o + w) eqn:Hlt; [apply Z.ltb_lt in Hlt; lia|].
  rewrite (field_value _ _ _ Hsup Hl). cbv zeta.
  rewrite length_field_frameEnd.
  destruct (len buf <? frameEnd) eqn:Hlt'; [apply Z.ltb_lt in Hlt'; lia|].
  rewrite slice_ok, slice_from_ok by lia. done.
Qed.

End LengthFieldPass.

(** C4 (as amended).  Let the offset [o] and the width [w] be non-negative.
    A call of [LengthFieldFramer(o, w, a, strip, order)] looks at its
    buffer pass by pass.  With fewer than [o + w] bytes it returns the
    buffer as the remainder, whatever the width.  With [o + w] bytes or
    more, a width other than 1, 2, 4 or 8 makes it return an error; for
    those widths it reads the [w]-byte length at offset [o] in the given
    byte order, adds [a], and with [packetEnd = o + w + length + a]: when
    the buffer is shorter than [packetEnd] it returns the buffer as the
    remainder; when [packetEnd] bytes are there and [0 <= strip <=
    packetEnd], it emits the bytes from [strip] to [packetEnd] and goes on
    with the bytes after [packetEnd].  On [00 00 00 05 48 65 6C 6C 6F 00 00
    00 03 41 42] with [(0, 4, 0, 4, BigEndian)] it returns the one frame
    [48 65 6C 6C 6F] and the last six bytes as the remainder. *)
Theorem length_field_framer_passes (o w a strip : Z) (order : ByteOrder)
    (buf : bytes) (fuel : nat) :
  0 <= o -> 0 <= w -> o + w < 2 ^ 63 -> in_int64 a ->
  let call := LengthFieldFramer o w a strip order in
  let length := order_uint order (take (Z.to_nat w) (drop (Z.to_nat o) buf)) in
  let packetEnd := o + w + length + a in
  (len buf < o + w -> call (S fuel) buf = Some (Returned [] buf None)) /\
  (o + w <= len buf -> ~ supported w ->
   call (S fuel) buf = Some (Returned [] [] (Some unsupported_size))) /\
  (o + w <= len buf -> supported w -> 0 <= length + a -> packetEnd < 2 ^ 63 ->
   (len buf < packetEnd -> call (S fuel) buf = Some (Returned [] buf None)) /\
   (packetEnd <= len buf -> 0 <= strip <= packetEnd ->
    call (S fuel) buf =
    prepend (take (Z.to_nat (packetEnd - strip)) (drop (Z.to_nat strip) buf))
            (call fuel (drop (Z.to_nat packetEnd) buf)))) /\
  LengthFieldFramer 0 4 0 4 BigEndian 2
    [x00; x00; x00; x05; x48; x65; x6c; x6c; x6f; x00; x00; x00; x03; x41; x42]
  = Some (Returned [[x48; x65; x6c; x6c; x6f]]
            [x00; x00; x00; x03; x41; x42] None).
Proof.
  intros Ho Hw How Ha call length packetEnd.
  split_and!; [| | |reflexivity].
  - intros Hshort. unfold call, LengthFieldFramer, length_field_body. simpl.
    rewrite (wrap64_id (o + w)) by (unfold in_int64; lia).
    apply Z.ltb_lt in Hshort. by rewrite Hshort.
  - intros Hhdr Hns. unfold call, LengthFieldFramer. simpl.
    by rewrite length_field_unsupported.
  - intros Hhdr Hsup Hlen Hend. split.
    + intros Hshort. unfold call, LengthFieldFramer. simpl.
      by rewrite length_field_incomplete.
    + intros Hfull Hstrip. unfold call, LengthFieldFramer.
      apply frame_loop_emit. by apply length_field_complete.
Qed.

Lemma length_field_framer_passes_witness :
  LengthFieldFramer 0 4 0 4 BigEndian 2
    [x00; x00; x00; x05; x48; x65; x6c; x6c; x6f; x00; x00; x00; x03; x41; x42]
  = prepend [x48; x65; x6c; x6c; x6f]
      (LengthFieldFramer 0 4 0 4 BigEndian 1 [x00; x00; x00; x03; x41; x42]).
Proof.
  assert (Ha : in_int64 0) by (unfold in_int64; lia).
  pose proof (length_field_framer_passes 0 4 0 4 BigEndian
    [x00; x00; x00; x05; x48; x65; x6c; x6c; x6f; x00; x00; x00; x03; x41; x42]
    1 ltac:(lia) ltac:(lia) ltac:(lia) Ha) as (_ & _ & H & _).
  assert (Hs : supported 4) by (unfold supported; lia).
  destruct (H ltac:(vm_compute; discriminate) Hs ltac:(vm_compute; discriminate)
              ltac:(reflexivity)) as [_ H'].
  exact (H' ltac:(vm_compute; discriminate)
            ltac:(split; vm_compute; discriminate)).
Defined.

(** C4 as stated fails: with a width of 3 and fewer than three bytes
    buffered the call returns no error; and with the strip count past the
    end of a complete packet the slice expression panics. *)
Lemma length_field_framer_counterexample :
  LengthFieldFramer 0 3 0 0 BigEndian 1 [x00; x01]
    = Some (Returned [] [x00; x01] None) /\
  LengthFieldFramer 0 1 0 3 BigEndian 1 [x01; x41]
    = Some Panicked.
Proof. split; reflexivity. Qed.

(** ** The token bucket *)

Import RateLimit.

Ltac gtb_false H := rewrite Z.gtb_ltb in H; apply Z.ltb_ge in H.

Section BucketBound.

(** The interval starts at [t0] and is [delta] nanoseconds long; the
    bucket was last refilled at [last0] when the interval is looked at. *)
Variables (rate burst t0 delta last0 : Z).
Hypothesis Hrate : 0 <= rate.
Hypothesis Hburst : 0 <= burst.
Hypothesis Hdelta : 0 <= delta < 2 ^ 63.
Hypothesis Hlo : in_int64 (t0 - last0).
Hypothesis Hhi : in_int64 (t0 + delta - last0).
Hypothesis Hfit : burst + Z.max delta (t0 + delta - last0) * rate < 2 ^ 63.

Local Abbreviation inv := (bucket_inv rate burst t0 delta last0).
Local Abbreviation phi := (potential rate burst t0 delta).

Lemma div_giga_add (x y : Z) : x / giga + y / giga <= (x + y) / giga.
Proof.
  apply Z.div_le_lower_bound; [unfold giga; lia|].
  pose proof (Z.mul_div_le x giga ltac:(unfold giga; lia)).
  pose proof (Z.mul_div_le y giga ltac:(unfold giga; lia)). lia.
Qed.

(** Less than one token's worth of time adds at most one token to what
    the time after it adds. *)
Lemma div_giga_carry (x y : Z) : x / giga <= 0 -> (y + x) / giga <= y / giga + 1.
Proof.
  intros Hx.
  assert (x < giga).
  { destruct (Z.lt_ge_cases x giga) as [|Hge]; [done|].
    pose proof (Z.div_le_mono giga x giga ltac:(unfold giga; lia) Hge) as Hm.
    rewrite Z.div_same in Hm by (unfold giga; lia). lia. }
  transitivity ((y + 1 * giga) / giga).
  - apply Z.div_le_mono; [unfold giga; lia|lia].
  - rewrite Z.div_add by (unfold giga; lia). lia.
Qed.

(** One call of [Allow], in closed form. *)
Lemma Allow_spec (b : AtomicBucket) (now : Z) :
  inv b -> t0 <= now <= t0 + delta ->
  let added := Z.max 0 (rate * (now - lastRefill b) / giga) in
  let filled := Z.min burst (tokens b + added) in
  (Allow b now).1 = (0 <? filled) /\
  tokens (Allow b now).2 = (if 0 <? filled then filled - 1 else filled) /\
  lastRefill (Allow b now).2 = (if 0 <? added then now else lastRefill b) /\
  capacity (Allow b now).2 = burst /\ refillRate (Allow b now).2 = rate.
Proof.
  intros (Hc & Hr & Ht & Hl) Hnow. cbv zeta.
  unfold in_int64 in *.
  set (elapsed := now - lastRefill b).
  assert (Hel : - 2 ^ 63 <= elapsed < 2 ^ 63) by (unfold elapsed; lia).
  assert (Hprod : 0 < elapsed -> 0 <= elapsed * rate /\
                                 burst + elapsed * rate < 2 ^ 63).
  { intros Hpos. split; [nia|].
    assert (elapsed <= Z.max delta (t0 + delta - last0))
      by (unfold elapsed; lia).
    nia. }
  assert (Hb63 : burst < 2 ^ 63).
  { assert (0 <= Z.max delta (t0 + delta - last0) * rate)
      by (apply Z.mul_nonneg_nonneg; lia).
    lia. }
  assert (Hq : 0 < elapsed -> 0 <= rate * elapsed / giga <= elapsed * rate).
  { intros Hpos. split; [apply Z.div_pos; unfold giga; nia|].
    replace (elapsed * rate) with (rate * elapsed) by lia.
    apply Z.div_le_upper_bound; unfold giga; nia. }
  assert (Hrefill :
    tokens (refill b now) = Z.min burst (tokens b + Z.max 0 (rate * elapsed / giga)) /\
    lastRefill (refill b now)
      = (if 0 <? Z.max 0 (rate * elapsed / giga) then now else lastRefill b) /\
    capacity (refill b now) = burst /\ refillRate (refill b now) = rate).
  { unfold refill. fold elapsed.
    rewrite (wrap64_id elapsed) by (unfold in_int64; lia).
    rewrite Hr, Hc.
    destruct (elapsed >? 0) eqn:He.
    - apply Z.gtb_lt in He.
      destruct (Hprod He) as [Hp0 Hp1]. destruct (Hq He) as [Hq0 Hq1].
      rewrite (wrap64_id (elapsed * rate)) by (unfold in_int64; lia).
      rewrite Z.quot_div_nonneg by (unfold giga in *; lia).
      replace (elapsed * rate) with (rate * elapsed) by lia.
      change 1000000000 with giga.
      destruct (rate * elapsed / giga >? 0) eqn:Hn.
      + apply Z.gtb_lt in Hn.
        rewrite (wrap64_id (tokens b + rate * elapsed / giga))
          by (unfold in_int64; lia).
        replace (0 <? Z.max 0 (rate * elapsed / giga)) with true
          by (symmetry; apply Z.ltb_lt; lia).
        destruct (tokens b + rate * elapsed / giga >? burst) eqn:Hcap;
          [apply Z.gtb_lt in Hcap|gtb_false Hcap]; simpl;
          split_and!; try done; lia.
      + gtb_false Hn.
        replace (0 <? Z.max 0 (rate * elapsed / giga)) with false
          by (symmetry; apply Z.ltb_ge; lia).
        split_and!; try done; lia.
    - gtb_false He.
      assert (rate * elapsed / giga <= 0)
        by (apply Z.div_le_upper_bound; unfold giga; nia).
      replace (0 <? Z.max 0 (rate * elapsed / giga)) with false
        by (symmetry; apply Z.ltb_ge; lia).
      split_and!; try done; lia. }
  destruct Hrefill as (Htok & Hlast & Hcap & Hrat).
  unfold Allow, consume. rewrite Htok, Hlast, Hcap, Hrat.
  set (filled := Z.min burst (tokens b + Z.max 0 (rate * elapsed / giga))).
  assert (0 <= filled <= burst) by (unfold filled; lia).
  destruct (filled <=? 0) eqn:H0.
  - apply Z.leb_le in H0. simpl.
    replace (0 <? filled) with false by (symmetry; apply Z.ltb_ge; lia).
    done.
  - apply Z.leb_gt in H0. simpl.
    rewrite (wrap64_id (filled - 1)) by (unfold in_int64; lia).
    replace (0 <? filled) with true by (symmetry; apply Z.ltb_lt; lia).
    done.
Qed.

Lemma potential_nonneg (b : AtomicBucket) : inv b -> 0 <= phi b.
Proof.
  intros (Hc & Hr & Ht & Hl). unfold potential. cbv zeta.
  assert (0 <= rate * delta / giga) by (apply Z.div_pos; unfold giga; nia).
  destruct (lastRefill b <? t0) eqn:Hb; [|lia].
  apply Z.ltb_lt in Hb.
  assert (0 <= rate * (t0 + delta - lastRefill b) / giga)
    by (apply Z.div_pos; unfold giga; nia).
  lia.
Qed.

Lemma potential_bound (b : AtomicBucket) :
  inv b ->
  phi b <= burst + rate * delta / giga + 1 /\
  (t0 <= lastRefill b -> phi b <= burst + rate * delta / giga).
Proof.
  intros (Hc & Hr & Ht & Hl). unfold potential. cbv zeta.
  assert (0 <= rate * delta / giga) by (apply Z.div_pos; unfold giga; nia).
  assert (Hin : t0 <= lastRefill b ->
    rate * (t0 + delta - lastRefill b) / giga <= rate * delta / giga).
  { intros Hge. apply Z.div_le_mono; [unfold giga; lia|nia]. }
  destruct (lastRefill b <? t0) eqn:Hb;
    [apply Z.ltb_lt in Hb|apply Z.ltb_ge in Hb; specialize (Hin Hb)]; lia.
Qed.

(** A call of the interval keeps the invariant, and a granted call uses up
    one unit of the potential. *)
Lemma Allow_potential (b : AtomicBucket) (now : Z) :
  inv b -> t0 <= now <= t0 + delta ->
  inv (Allow b now).2 /\
  phi (Allow b now).2 + (if (Allow b now).1 then 1 else 0) <= phi b.
Proof.
  intros Hb Hnow.
  destruct (Allow_spec b now Hb Hnow) as (Hok & Htok & Hlast & Hcap & Hrat).
  destruct Hb as (Hc & Hr & Ht & Hl).
  set (b' := (Allow b now).2) in *.
  set (n := rate * (now - lastRefill b) / giga) in *.
  set (filled := Z.min burst (tokens b + Z.max 0 n)) in *.
  assert (Hf : 0 <= filled <= burst) by (unfold filled; lia).
  assert (HT' : 0 <= tokens b' <= burst /\
                tokens b' + (if (Allow b now).1 then 1 else 0) = filled).
  { rewrite Hok, Htok. destruct (0 <? filled) eqn:H0;
      [apply Z.ltb_lt in H0|apply Z.ltb_ge in H0]; lia. }
  destruct HT' as [HT' Hsum].
  split.
  { unfold bucket_inv. split_and!; try done; try lia.
    rewrite Hlast. destruct (0 <? Z.max 0 n); [right; lia|done]. }
  unfold potential. cbv zeta. rewrite Hlast.
  set (R := rate * (t0 + delta - now) / giga).
  set (X := rate * (t0 + delta - lastRefill b) / giga).
  assert (HR : 0 <= R <= rate * delta / giga).
  { unfold R. split; [apply Z.div_pos; unfold giga; nia|].
    apply Z.div_le_mono; [unfold giga; lia|nia]. }
  assert (Hadd : n + R <= X).
  { unfold n, R, X. etransitivity; [apply div_giga_add|].
    apply Z.eq_le_incl. f_equal. lia. }
  destruct (0 <? Z.max 0 n) eqn:Hn.
  - apply Z.ltb_lt in Hn.
    replace (now <? t0) with false by (symmetry; apply Z.ltb_ge; lia).
    fold R.
    destruct (lastRefill b <? t0); unfold filled in *; lia.
  - apply Z.ltb_ge in Hn. fold X.
    assert (filled = tokens b) by (unfold filled; lia).
    destruct (lastRefill b <? t0) eqn:Hb; [|lia].
    apply Z.ltb_lt in Hb.
    assert (X <= R + 1).
    { unfold X, R.
      replace (rate * (t0 + delta - lastRefill b))
        with (rate * (t0 + delta - now) + rate * (now - lastRefill b)) by lia.
      apply div_giga_carry. fold n. lia. }
    lia.
Qed.

Lemma allow_all_potential (times : list Z) (b : AtomicBucket) :
  inv b -> Forall (fun t => t0 <= t <= t0 + delta) times ->
  Z.of_nat (allow_all b times).1 <= phi b.
Proof.
  revert b. induction times as [|t ts IH]; intros b Hb Hts.
  - simpl. by apply potential_nonneg.
  - apply Forall_cons in Hts as [Ht Hts]. simpl.
    destruct (Allow_potential b t Hb Ht) as [Hb1 Hp].
    destruct (Allow b t) as [ok b1]. simpl in *.
    specialize (IH b1 Hb1 Hts).
    destruct (allow_all b1 ts) as [n b2]. simpl in *.
    destruct ok; lia.
Qed.

End BucketBound.



(** On an interval that starts when the bucket is made the bound is
    [b + floor(r * delta / 1e9)]: 20 of the 25 calls within 100 ms. *)
Example token_bucket_bound_from_creation :
  Z.of_nat (allow_all (NewAtomicBucket 0 10 20) (replicate 25 50000000)).1
    <= 20 + 10 * 100000000 / 1000000000.
Proof. vm_compute. discriminate. Qed.

(** The burst of the specification's scenario: of 25 calls within 100 ms on
    a bucket of rate 10 and burst 20, exactly 20 are granted. *)
Example allow_burst_scenario :
  (allow_all (NewAtomicBucket 0 10 20) (replicate 25 50000000)).1 = 20%nat.
Proof. vm_compute. reflexivity. Qed.


(** ** The rate-limit middleware *)

Section RateLimitMiddleware.

Context {W Ctx : Type}.
Variable conn_ID : Ctx -> string.
Variable get_limiter : W -> Limiter.
Variable set_limiter : Limiter -> W -> W.

(** C6.  A message enters the rate-limit middleware.  The bucket of its
    connection is the one stored under the connection's id, or a fresh
    full one, stored on this first message.  The middleware asks that
    bucket and, when it grants, the global bucket.  When both grant, the
    middleware calls [next] and nothing else; when either refuses, it
    calls the [limit] handler if there is one, handing it [next], and does
    not call [next] itself.  [l'] is the limiter state the call leaves:
    the connection's bucket after its [Allow], the global bucket after
    its [Allow] when it was asked. *)
Theorem rate_limit_next_iff_both_grant (connRate connBurst : Z)
    (limit : option (Chain.Handler W Ctx)) (ctx : Ctx) (next : W -> W) (w : W) :
  let l := get_limiter w in
  let t_new := clock l (reads l) in
  let t_conn := clock l (S (reads l)) in
  let t_global := clock l (S (S (reads l))) in
  let tb := default (NewAtomicBucket t_new connRate connBurst)
                    (connBuckets l !! conn_ID ctx) in
  let conn_grant := (Allow tb t_conn).1 in
  let global_grant := (Allow (global l) t_global).1 in
  exists l',
    connBuckets l' !! conn_ID ctx = Some (Allow tb t_conn).2 /\
    global l' = (if conn_grant then (Allow (global l) t_global).2 else global l) /\
    RateLimitHandler conn_ID get_limiter set_limiter connRate connBurst
      limit ctx next w =
    if conn_grant && global_grant then next (set_limiter l' w)
    else match limit with
         | Some lim => lim ctx next (set_limiter l' w)
         | None => set_limiter l' w
         end.
Proof.
  cbv zeta. unfold RateLimitHandler, conn_Allow, global_Allow, LoadOrStore,
    time_Now.
  destruct (connBuckets (get_limiter w) !! conn_ID ctx) as [tb|] eqn:Hlook;
    simpl; rewrite ?Hlook; simpl.
  - destruct (Allow tb _) as [ok1 tb'] eqn:Hconn. simpl.
    destruct ok1; simpl;
      [destruct (Allow (global (get_limiter w)) _) as [[] g'] eqn:Hg; simpl|];
      (eexists; split_and!; [| |reflexivity]; simpl;
       [by rewrite lookup_insert_eq|done]).
  - destruct (Allow (NewAtomicBucket _ connRate connBurst) _)
      as [ok1 tb'] eqn:Hconn. simpl.
    destruct ok1; simpl;
      [destruct (Allow (global (get_limiter w)) _) as [[] g'] eqn:Hg; simpl|];
      (eexists; split_and!; [| |reflexivity]; simpl;
       [by rewrite lookup_insert_eq|done]).
Qed.

End RateLimitMiddleware.

(** The specification's scenario: of 25 messages within 100 ms, 20 reach the
    message hook and 5 the limit handler; a second later 10 more pass. *)
Example burst_of_25 : (Nat.iter 25 RateLimitScenario.message RateLimitScenario.start).2 = (20%nat, 5%nat).
Proof. vm_compute. reflexivity. Qed.

Example ten_more_after_a_second :
  (Nat.iter 15 RateLimitScenario.message (Nat.iter 25 RateLimitScenario.message RateLimitScenario.start)).2 = (30%nat, 10%nat).
Proof. vm_compute. reflexivity. Qed.

(** ** The trie never gets a child *)

Section TrieFacts.

Context {V : Type}.
Implicit Types (cur : Trie.Node V) (t : Trie.Trie V).

(** On a node without a child the swap that would add one compares the
    pointer stored, the address of an earlier [newMap], with the address
    of the [children] of this pass: they differ, the pass is repeated, and
    so on for ever. *)
Lemma Insert_loop_spins (fuel : nat) cur (v : V) (p : string)
    (ps : list string) (fresh : Trie.addr) :
  Trie.barren cur fresh -> Trie.Insert_loop fuel cur v (p :: ps) fresh = None.
Proof.
  revert cur fresh. induction fuel as [|n IH]; intros cur fresh Hb; [done|].
  cbn [Trie.Insert_loop]. unfold Trie.barren, Trie.Children in *.
  destruct (Trie.children cur) as [[a m]|] eqn:Hc; cbn [fmap option_fmap option_map fst snd].
  - destruct Hb as [Ha ->]. rewrite lookup_empty. cbn [Trie.CompareAndSwap].
    replace (a =? fresh)%nat with false by (symmetry; apply Nat.eqb_neq; lia).
    apply IH. unfold Trie.barren. rewrite Hc. split; [lia|done].
  - cbn [Trie.CompareAndSwap Trie.children]. rewrite lookup_empty.
    cbn [fmap option_fmap option_map fst Trie.CompareAndSwap].
    replace (S fresh =? fresh)%nat with false by (symmetry; apply Nat.eqb_neq; lia).
    apply IH. unfold Trie.barren. cbn [Trie.children]. split; [lia|done].
Qed.

Lemma Insert_spins (fuel : nat) t (v : V) (parts : list string) :
  Trie.barren (Trie.root t) (Trie.fresh t) -> parts <> [] ->
  Trie.Insert fuel t v parts = None.
Proof.
  intros Hb Hp. destruct parts as [|p ps]; [done|].
  unfold Trie.Insert. by rewrite Insert_loop_spins.
Qed.

(** With no part to walk the value is stored at the root at once. *)
Lemma Insert_root (fuel : nat) t (v : V) :
  Trie.Insert fuel t v [] =
  Some (Trie.mkTrie
          (Trie.mkNode (Trie.part (Trie.root t)) (Some v)
             (Trie.children (Trie.root t)))
          (Trie.fresh t)).
Proof. unfold Trie.Insert. by destruct fuel. Qed.

Lemma Query_barren t (p : string) (ps : list string) :
  Trie.barren (Trie.root t) (Trie.fresh t) -> Trie.Query t (p :: ps) = None.
Proof.
  unfold Trie.barren, Trie.Query. cbn [Trie.Query_from].
  unfold Trie.Child, Trie.Children.
  destruct (Trie.children (Trie.root t)) as [[a m]|]; [|done].
  intros [_ ->]. simpl. by rewrite lookup_empty.
Qed.

End TrieFacts.

(** ** The router's LRU cache is transparent *)

Import Router.

Section LruLemmas.

Context {V : Type}.
Implicit Types (l : list (string * V)) (c : Lru.lruCache V).

Lemma find_remove_ne (k key : string) l :
  k <> key -> Lru.find k (Lru.remove key l) = Lru.find k l.
Proof.
  intros Hne. induction l as [|[k' v] l IH]; simpl; [done|].
  destruct (String.eqb k' key) eqn:Hk.
  - apply String.eqb_eq in Hk as ->.
    destruct (String.eqb key k) eqn:Hk'; [|done].
    apply String.eqb_eq in Hk'. congruence.
  - simpl. by rewrite IH.
Qed.

Lemma find_removelast (k : string) (v : V) l :
  Lru.find k (removelast l) = Some v -> Lru.find k l = Some v.
Proof.
  induction l as [|[k' v'] l IH]; simpl; [done|].
  destruct l as [|e l]; [done|].
  change (Lru.find k ((k', v') :: removelast (e :: l)) = Some v ->
          Lru.find k ((k', v') :: e :: l) = Some v).
  cbn [Lru.find]. destruct (String.eqb k' k); [done|]. apply IH.
Qed.

(** Whatever the cache answers was put there for that key, with that
    value, or was in the cache before. *)
Lemma find_Get (k key : string) (v : V) c :
  Lru.find k (Lru.entries (Lru.Get c key).2) = Some v ->
  Lru.find k (Lru.entries c) = Some v.
Proof.
  unfold Lru.Get. destruct (Lru.find key (Lru.entries c)) as [v'|] eqn:Hf;
    simpl; [|done].
  destruct (String.eqb key k) eqn:Hk.
  - apply String.eqb_eq in Hk as ->. congruence.
  - apply String.eqb_neq in Hk. rewrite find_remove_ne by done. done.
Qed.

Lemma find_Add (k key : string) (v v' : V) c :
  Lru.find k (Lru.entries (Lru.Add c key v')) = Some v ->
  (k = key /\ v = v') \/ Lru.find k (Lru.entries c) = Some v.
Proof.
  unfold Lru.Add. destruct (Lru.capacity c =? 0); [by right|].
  assert (Hcons : Lru.find k ((key, v') :: Lru.entries c) = Some v ->
                  (k = key /\ v = v') \/ Lru.find k (Lru.entries c) = Some v).
  { simpl. destruct (String.eqb key k) eqn:Hk; [|by right].
    apply String.eqb_eq in Hk as ->. intros [= ->]. by left. }
  destruct (Lru.find key (Lru.entries c)) as [v0|] eqn:Hf.
  - simpl. destruct (String.eqb key k) eqn:Hk.
    + apply String.eqb_eq in Hk as ->. intros [= ->]. by left.
    + apply String.eqb_neq in Hk. rewrite find_remove_ne by done. by right.
  - cbn [Lru.entries]. destruct (_ >? _); [|done].
    unfold Lru.removeOldest.
    intros Hr. apply Hcons. by apply find_removelast in Hr.
Qed.

End LruLemmas.

Section RouterCache.

Context {H : Type}.
Implicit Types (r : Router H) (route : Route H).

Lemma Match_uncached r (p : string) :
  (Match (set_cache r None) p).1 = lookup_trie r p.
Proof.
  unfold Match, lookup_trie, SplitPath. simpl.
  by destruct (Trie.Query _ _).
Qed.

Lemma Match_coherent r (p : string) :
  cache_coherent r ->
  (Match r p).1 = lookup_trie r p /\ cache_coherent (Match r p).2 /\
  trie (Match r p).2 = trie r /\ sep (Match r p).2 = sep r /\
  groups (Match r p).2 = groups r /\ notFound (Match r p).2 = notFound r.
Proof.
  intros Hco. unfold Match.
  destruct (cache r) as [c|] eqn:Hc.
  - destruct (Lru.Get c p) as [[v|] c'] eqn:Hget.
    + simpl. split_and!; try done.
      * symmetry. apply Hco. unfold cache_entries. rewrite Hc.
        unfold Lru.Get in Hget.
        destruct (Lru.find p (Lru.entries c)); by simplify_eq.
      * intros p' route'. unfold cache_entries, lookup_trie, SplitPath. simpl.
        intros Hf. apply (Hco p'). unfold cache_entries. rewrite Hc.
        apply (find_Get _ p). by rewrite Hget.
    + fold (lookup_trie r p).
      destruct (lookup_trie r p) as [route|] eqn:Hq; simpl; [|done].
      split_and!; try done.
      intros p' route'. unfold cache_entries, lookup_trie, SplitPath. simpl.
      intros [[-> ->]|Hf]%find_Add; [done|].
      apply (Hco p'). unfold cache_entries. by rewrite Hc.
  - fold (lookup_trie r p).
    destruct (lookup_trie r p) as [route|] eqn:Hq; simpl; done.
Qed.

Lemma empty_coherent r : cache_entries r = [] -> cache_coherent r.
Proof. intros He p route. by rewrite He. Qed.

End RouterCache.

(** ** What every reachable router satisfies *)

Section RouterInvariant.

Context {H : Type}.
Implicit Types (r : Router H) (route : Route H) (gs : list (RouterGroup H)).

Lemma settled_NewRouter (separator : string) :
  settled (NewRouter (H := H) separator).
Proof.
  unfold settled. split_and!.
  - done.
  - intros [|id] grp Hg; simplify_eq/=. done.
  - intros [|id] grp p Hg Hp; simplify_eq/=.
  - by apply empty_coherent.
  - intros parts route. unfold Trie.Query. simpl.
    destruct parts as [|p ps]; simpl; done.
Qed.

Lemma settled_Match r (p : string) : settled r -> settled (Match r p).2.
Proof.
  intros (Hb & Hi & Hp & Hc & Hl).
  destruct (Match_coherent r p Hc) as (_ & Hc' & Ht & _ & Hg & _).
  unfold settled, routes_live. rewrite Ht, Hg. done.
Qed.

(** [insert] returns exactly for a route whose path has no part. *)
Lemma insert_cases (fuel : nat) r route :
  settled r ->
  match SplitPath r (path route) with
  | [] =>
      exists r', insert fuel r route = Returns r' /\
        cache_entries r' = [] /\ groups r' = groups r /\ sep r' = sep r /\
        notFound r' = notFound r /\
        Trie.fresh (trie r') = Trie.fresh (trie r) /\
        Trie.children (Trie.root (trie r'))
          = Trie.children (Trie.root (trie r)) /\
        Trie.value (Trie.root (trie r')) = Some route
  | _ :: _ => insert fuel r route = Spins
  end.
Proof.
  intros (Hb & _). unfold insert.
  destruct (SplitPath r (path route)) as [|p ps] eqn:Hparts.
  - rewrite Insert_root. unfold cache_entries. simpl.
    destruct (cache r) as [c|] eqn:Hc; simpl; rewrite ?Hc;
      (eexists; split; [reflexivity|]; simpl; rewrite ?Hc; split_and!; done).
  - by rewrite Insert_spins.
Qed.

Lemma settled_insert (fuel : nat) r route r' :
  settled r -> (group route < length (groups r))%nat ->
  insert fuel r route = Returns r' -> settled r'.
Proof.
  intros Hs Hlive Hins. pose proof (insert_cases fuel r route Hs) as Hc.
  destruct Hs as (Hb & Hi & Hp & _ & _).
  destruct (SplitPath r (path route)); [|by rewrite Hins in Hc].
  destruct Hc as (r0 & Hr0 & He & Hg & _ & _ & Hf & Hch & Hv).
  rewrite Hins in Hr0. injection Hr0 as <-.
  unfold settled, routes_live, Trie.barren. rewrite Hg, Hf, Hch.
  split_and!; try done.
  - by apply empty_coherent.
  - intros parts route'. destruct parts as [|p ps].
    + unfold Trie.Query. simpl. rewrite Hv. by intros [= <-].
    + rewrite Query_barren; [done|]. unfold Trie.barren. by rewrite Hf, Hch.
Qed.

Lemma settled_Handle (fuel : nat) r (g : nat) (p : string) (hs : list H) r' :
  settled r -> Handle fuel r g p hs = Returns r' -> settled r'.
Proof.
  intros Hs. unfold Handle. destruct hs as [|h hs]; [by intros [= <-]|].
  destruct (groups r !! g) as [grp|] eqn:Hg; [|done].
  apply settled_insert; [done|]. simpl. by apply lookup_lt_Some in Hg.
Qed.

Lemma settled_Group r (g : nat) (pfx : string) (id : nat) r' :
  settled r -> Group r g pfx = Returns (id, r') -> settled r'.
Proof.
  intros (Hb & Hi & Hp & Hc & Hl). unfold Group.
  destruct pfx as [|c pfx]; [by intros [= <- <-]|].
  destruct (groups r !! g) as [grp|] eqn:Hg; [|done].
  destruct (Hi g grp Hg) as (Hmu & Hmw & Hch). rewrite Hmu. simpl.
  intros [= <- <-]. pose proof (lookup_lt_Some _ _ _ Hg) as Hlt.
  unfold settled, routes_live. simpl. split_and!; try done.
  - intros id grp'. rewrite lookup_app_Some, length_insert.
    intros [Hin|[_ Hnew]].
    + destruct (decide (id = g)) as [->|Hne].
      * rewrite list_lookup_insert_eq in Hin by done. by simplify_eq.
      * rewrite list_lookup_insert_ne in Hin by done. by apply Hi in Hin.
    + apply list_lookup_singleton_Some in Hnew as [_ <-]. done.
  - intros id grp' q. rewrite lookup_app_Some, length_insert.
    intros [Hin|[Hge Hnew]] Hq.
    + destruct (decide (id = g)) as [->|Hne].
      * rewrite list_lookup_insert_eq in Hin by done. simplify_eq.
        by apply (Hp g grp).
      * rewrite list_lookup_insert_ne in Hin by done. by apply (Hp id grp').
    + apply list_lookup_singleton_Some in Hnew as [_ <-]. simpl in Hq.
      simplify_eq. lia.
  - intros parts route Hq. rewrite length_app, length_insert.
    specialize (Hl parts route Hq). lia.
Qed.

(** [Use] with a handler to add never returns: it waits for the read lock
    of the group whose write lock it holds, or for the write lock
    itself. *)
Lemma Use_blocks r (g : nat) (grp : RouterGroup H) (h : H) (hs : list H) :
  groups r !! g = Some grp -> Use r g (h :: hs) = Blocks.
Proof.
  intros Hg. unfold Use. rewrite Hg.
  destruct (mu grp) eqn:Hmu; simpl; [|done|done].
  pose proof (lookup_lt_Some _ _ _ Hg) as Hlt.
  rewrite length_insert.
  destruct (length (groups r)) as [|n] eqn:Hlen; [lia|].
  cbn [invalidateCache].
  rewrite list_lookup_insert_eq by lia. done.
Qed.

Lemma settled_Use r (g : nat) (hs : list H) r' :
  settled r -> Use r g hs = Returns r' -> settled r'.
Proof.
  intros Hs. destruct hs as [|h hs]; [by intros [= <-]|].
  destruct (groups r !! g) as [grp|] eqn:Hg.
  - intros HU. by rewrite (Use_blocks r g grp h hs Hg) in HU.
  - unfold Use. by rewrite Hg.
Qed.

(** Where no group holds a lock or a middleware, the walk up to the root
    adds nothing. *)
Lemma combine_idle gs (fuel id : nat) (acc : list H) :
  groups_idle gs -> parents_first gs -> (id < length gs)%nat ->
  (id < fuel)%nat -> combine fuel gs (Some id) acc = Returns acc.
Proof.
  intros Hi Hp. revert id acc.
  induction fuel as [|n IH]; intros id acc Hid Hfuel; [lia|].
  cbn [combine]. destruct (lookup_lt_is_Some_2 gs id Hid) as [grp Hg].
  rewrite Hg. destruct (Hi id grp Hg) as (-> & -> & _). simpl.
  destruct (parent grp) as [p|] eqn:Hpar.
  - pose proof (Hp id grp p Hg Hpar). apply IH; lia.
  - by destruct n.
Qed.

(** On a reachable router [Handlers] returns the empty chain. *)
Lemma Handlers_idle r (g : nat) :
  settled r -> (g < length (groups r))%nat ->
  exists r', Handlers r g = Returns ([], r') /\ settled r' /\
    trie r' = trie r /\ cache r' = cache r /\ notFound r' = notFound r /\
    sep r' = sep r.
Proof.
  intros (Hb & Hi & Hp & Hc & Hl) Hg. unfold Handlers.
  destruct (lookup_lt_is_Some_2 _ _ Hg) as [grp Hgrp]. rewrite Hgrp.
  destruct (Hi g grp Hgrp) as (Hmu & Hmw & Hch).
  destruct (cacheValid grp) eqn:Hvalid.
  - exists r. rewrite Hch. split_and!; done.
  - rewrite combine_idle by done.
    eexists. split; [done|]. unfold settled, routes_live. simpl.
    rewrite length_insert. split_and!; try done.
    + intros id grp'. destruct (decide (id = g)) as [->|Hne].
      * rewrite list_lookup_insert_eq by done. by intros [= <-].
      * rewrite list_lookup_insert_ne by done. apply Hi.
    + intros id grp' q. destruct (decide (id = g)) as [->|Hne].
      * rewrite list_lookup_insert_eq by done. intros [= <-]. simpl.
        by apply (Hp g grp).
      * rewrite list_lookup_insert_ne by done. apply Hp.
Qed.

Lemma settled_Handlers r (g : nat) (hs : list H) r' :
  settled r -> Handlers r g = Returns (hs, r') -> settled r' /\ hs = [].
Proof.
  intros Hs HH.
  destruct (decide (g < length (groups r))%nat) as [Hg|Hg].
  - destruct (Handlers_idle r g Hs Hg) as (r0 & Hr0 & Hs0 & _).
    rewrite HH in Hr0. by simplify_eq.
  - unfold Handlers in HH. rewrite lookup_ge_None_2 in HH by lia. done.
Qed.

Lemma settled_Lru r (size : Z) : settled r -> settled (Lru r size).
Proof.
  intros (Hb & Hi & Hp & Hc & Hl). unfold Lru, settled, routes_live.
  destruct (size <=? 0); simpl; split_and!; try done; by apply empty_coherent.
Qed.

Lemma settled_NotFound r (hs : list H) : settled r -> settled (NotFound r hs).
Proof.
  intros Hs. unfold NotFound. destruct hs; [done|].
  destruct Hs as (Hb & Hi & Hp & Hc & Hl). unfold settled. split_and!; done.
Qed.

Lemma settled_apply_op (fuel : nat) r (o : op) r' :
  settled r -> apply_op fuel r o = Returns r' -> settled r'.
Proof.
  intros Hs. destruct o as [p|g p hs|g pfx|g hs|size|hs|g]; simpl.
  - intros [= <-]. by apply settled_Match.
  - by apply settled_Handle.
  - destruct (Group r g pfx) as [[id r0]| | |] eqn:HG; try done.
    intros [= <-]. by apply (settled_Group r g pfx id).
  - by apply settled_Use.
  - intros [= <-]. by apply settled_Lru.
  - intros [= <-]. by apply settled_NotFound.
  - destruct (Handlers r g) as [[hs r0]| | |] eqn:HH; try done.
    intros [= <-]. by apply (settled_Handlers r g hs).
Qed.

Lemma settled_run_ops (fuel : nat) (ops : list op) r r' :
  settled r -> run_ops fuel r ops = Returns r' -> settled r'.
Proof.
  revert r. induction ops as [|o ops IH]; intros r Hs; simpl.
  - by intros [= <-].
  - destruct (apply_op fuel r o) as [r0| | |] eqn:Ho; try done.
    apply IH. by apply (settled_apply_op fuel r o).
Qed.

Lemma reachable_settled r : reachable r -> settled r.
Proof.
  induction 1 as [separator|fuel r o r' _ IH Ho].
  - apply settled_NewRouter.
  - by apply (settled_apply_op fuel r o).
Qed.

Lemma reachable_run_ops (fuel : nat) (ops : list op) r r' :
  reachable r -> run_ops fuel r ops = Returns r' -> reachable r'.
Proof.
  revert r. induction ops as [|o ops IH]; intros r Hr; simpl.
  - by intros [= <-].
  - destruct (apply_op fuel r o) as [r0| | |] eqn:Ho; try done.
    apply IH. by apply (reachable_call fuel r o).
Qed.

End RouterInvariant.

(** ** Routes cannot be registered below the root *)

Section RouteInsertion.

Context {H : Type}.
Implicit Types (r : Router H) (route : Route H).

(** C8, where the code departs from it.  On every router the code can
    build, inserting a route whose path has a part never returns:
    [Trie.Insert] repeats its pass for ever, so [Router.insert] does not
    get to the line that clears the cache, and neither does the [Handle]
    that calls it.  Whatever the fuel, the call is still looping. *)
Theorem route_insertion_never_returns r (g : nat) (grp : RouterGroup H)
    (p : string) (h : H) (hs : list H) (fuel : nat) :
  reachable r ->
  groups r !! g = Some grp ->
  SplitPath r (JoinPath r [prefix grp; p]) <> [] ->
  Handle fuel r g p (h :: hs) = Spins /\
  forall route,
    SplitPath r (path route) <> [] -> insert fuel r route = Spins.
Proof.
  intros Hr Hg Hparts. apply reachable_settled in Hr.
  assert (Hins : forall route,
    SplitPath r (path route) <> [] -> insert fuel r route = Spins).
  { intros route Hp. pose proof (insert_cases fuel r route Hr) as Hc.
    by destruct (SplitPath r (path route)). }
  split; [|done]. unfold Handle. rewrite Hg. by apply Hins.
Qed.

(** Cache transparency itself holds.  On every router the code can build [Match]
    answers what it answers with the cache absent and with the cache
    emptied, and an insertion that returns, which is one at the root path,
    leaves the cache empty. *)
Lemma cache_transparent_when_reachable r (p : string) :
  reachable r ->
  (Match r p).1 = (Match (set_cache r None) p).1 /\
  (Match r p).1 = (Match (set_cache r (Lru.Clear <$> cache r)) p).1 /\
  (forall fuel route r',
     insert fuel r route = Returns r' ->
     SplitPath r (path route) = [] /\ cache_entries r' = []).
Proof.
  intros Hr. apply reachable_settled in Hr.
  pose proof Hr as (_ & _ & _ & Hco & _).
  split_and!.
  - rewrite Match_uncached. by apply Match_coherent.
  - destruct (Match_coherent r p Hco) as [-> _].
    assert (Hco' : cache_coherent (set_cache r (Lru.Clear <$> cache r))).
    { apply empty_coherent. unfold cache_entries. simpl.
      by destruct (cache r). }
    by destruct (Match_coherent _ p Hco') as [-> _].
  - intros fuel route r' Hins.
    pose proof (insert_cases fuel r route Hr) as Hc.
    destruct (SplitPath r (path route)); [|by rewrite Hins in Hc].
    destruct Hc as (r0 & Hr0 & He & _). rewrite Hins in Hr0.
    by simplify_eq.
Qed.

(** A route at the root path is registered by the first pass. *)
Lemma root_route_is_registered r (g : nat) (grp : RouterGroup H)
    (p : string) (h : H) (hs : list H) (fuel : nat) :
  reachable r ->
  groups r !! g = Some grp ->
  SplitPath r (JoinPath r [prefix grp; p]) = [] ->
  exists r',
    Handle fuel r g p (h :: hs) = Returns r' /\ reachable r' /\
    cache_entries r' = [] /\
    forall q, SplitPath r q = [] ->
      (Match r' q).1 = Some {| group := g; path := JoinPath r [prefix grp; p];
                               route_middleware := h :: hs |}.
Proof.
  intros Hr Hg Hparts. pose proof (reachable_settled r Hr) as Hs.
  set (route := {| group := g; path := JoinPath r [prefix grp; p];
                   route_middleware := h :: hs |}).
  pose proof (insert_cases fuel r route Hs) as Hc.
  change (path route) with (JoinPath r [prefix grp; p]) in Hc.
  rewrite Hparts in Hc.
  destruct Hc as (r' & Hins & He & Hgs & Hsep & _ & _ & _ & Hv).
  assert (HH : Handle fuel r g p (h :: hs) = Returns r')
    by (unfold Handle; by rewrite Hg).
  exists r'. split; [done|]. split.
  { by apply (reachable_call fuel r (OHandle g p (h :: hs))). }
  split; [done|]. intros q Hq.
  assert (Hs' : settled r').
  { apply (settled_Handle fuel r g p (h :: hs)); done. }
  destruct Hs' as (_ & _ & _ & Hco' & _).
  destruct (Match_coherent r' q Hco') as [-> _].
  unfold lookup_trie, SplitPath in *. rewrite Hsep, Hq.
  unfold Trie.Query. simpl. done.
Qed.

End RouteInsertion.

Lemma route_insertion_never_returns_witness :
  let r := (Match RouterScenario.router "/"%string).2 in
  cache_entries r <> [] /\
  Handle 1000 r 1 "Login"%string ["H1"%string] = Spins /\
  forall route : Route string,
    SplitPath r (path route) <> [] -> insert 1000 r route = Spins.
Proof.
  intros r.
  assert (Hr : reachable r).
  { apply (reachable_run_ops 1 (RouterScenario.setup ++ [OMatch "/"%string])
             (NewRouter "/"%string)); [constructor|].
    vm_compute. reflexivity. }
  split; [vm_compute; discriminate|].
  apply (route_insertion_never_returns r 1
           {| prefix := "api"%string; parent := Some O; children := [];
              mu := Unlocked; middleware := []; cacheValid := false;
              cachedHandlers := [] |}
           "Login"%string "H1"%string [] 1000 Hr).
  - vm_compute. reflexivity.
  - vm_compute. discriminate.
Defined.

(** ** The router middleware *)

Lemma Handle_Some {W Ctx : Type} (hs : list (Chain.Handler W Ctx)) (ctx : Ctx) :
  Chain.Handle hs (Some ctx) = Chain.dispatch hs ctx.
Proof. by destruct hs. Qed.

Section RouterMiddleware.

Context {W Ctx H : Type}.
Variable call : H -> Chain.Handler W Ctx.
Variable get_router : W -> Router H.
Variable set_router : Router H -> W -> W.
Variable resolver : Ctx -> W -> (string * bool) * W.

(** The sub-chain the middleware builds runs the handlers in order and
    the outer [next] after the last of them. *)
Lemma dispatch_in_order (hs : list H) (ctx : Ctx) (next : W -> W) :
  Chain.dispatch (map call hs ++ [fun _ _ => next]) ctx
  = in_order call hs ctx next.
Proof. induction hs as [|h hs IH]; simpl; [done|]. by rewrite IH. Qed.


End RouterMiddleware.

(** The specification's scenario, as far as the code gets. *)
Section RouterScenarioFacts.

Import RouterScenario.

Lemma scenario_router_reachable : reachable router.
Proof.
  apply (reachable_run_ops 1 setup (NewRouter "/"%string)); [constructor|].
  vm_compute. reflexivity.
Qed.

(** The group [api] is there, but [api.Use(M1)] does not return, and
    neither does [api.Handle("Login", H1)]. *)
Example use_M1_blocks : Use router 1 ["M1"%string] = Blocks.
Proof. vm_compute. reflexivity. Qed.

Example handle_Login_spins :
  Handle 1000 router 1 "Login"%string ["H1"%string] = Spins.
Proof. vm_compute. reflexivity. Qed.

Example on_root : handle "/" = Returns ["H1"; "next"]%string.
Proof. vm_compute. reflexivity. Qed.

Example on_login : handle "api/Login" = Returns ["NF"; "next"]%string.
Proof. vm_compute. reflexivity. Qed.

Example on_unknown : handle "Unknown" = Returns ["NF"; "next"]%string.
Proof. vm_compute. reflexivity. Qed.

Example on_no_path : handle "" = Returns ["next"]%string.
Proof. vm_compute. reflexivity. Qed.

End RouterScenarioFacts.


(** ** The activity flag of a connection *)

Section ConnLifecycle.

Import Conn.

Lemma step_started_active (c : Conn) (e : event) :
  started_active c -> started_active (step c e).
Proof.
  unfold started_active. intros Hinv.
  destruct e as [now| | | |now|now|enc pd]; simpl.
  - unfold Start. destruct (started c) eqn:Hs; [auto|]. by simpl.
  - unfold Close. by destruct (closing c).
  - done.
  - unfold mainLoop_done. by destruct (_ && _).
  - done.
  - unfold writeLoop_step. by destruct (sendCh c).
  - unfold Send. destruct (negb (IsActive c)); [done|].
    destruct enc as [buf|]; [|done].
    destruct (done c), (sendCh_closed c), (_ <? _), pd; simpl; done.
Qed.

Lemma step_active (c : Conn) (e : event) :
  started_active c -> active c = true -> active (step c e) = true.
Proof.
  intros Hinv Ha. destruct e as [now| | | |now|now|enc pd]; simpl.
  - unfold Start. by destruct (started c).
  - unfold Close. by destruct (closing c).
  - done.
  - unfold mainLoop_done. by destruct (_ && _).
  - done.
  - unfold writeLoop_step. by destruct (sendCh c).
  - unfold Send. destruct (negb (IsActive c)); [done|].
    destruct enc as [buf|]; [|done].
    destruct (done c), (sendCh_closed c), (_ <? _), pd; simpl; done.
Qed.

Lemma run_started_active (es : list event) (c : Conn) :
  started_active c -> started_active (run c es).
Proof.
  revert c. induction es as [|e es IH]; intros c Hinv; [done|].
  simpl. apply IH. by apply step_started_active.
Qed.

Lemma run_active (es : list event) (c : Conn) :
  started_active c -> active c = true -> active (run c es) = true.
Proof.
  revert c. induction es as [|e es IH]; intros c Hinv Ha; [done|].
  simpl. apply IH; [by apply step_started_active|by apply step_active].
Qed.

Lemma Start_active (c : Conn) (now : Time.Time) :
  started_active c -> active (Start c now) = true.
Proof.
  unfold started_active, Start. intros Hinv.
  destruct (started c); [by apply Hinv|done].
Qed.

(** C10.  A connection is created, anything happens to it, [Start] runs,
    and anything happens again: [Close], the cancellation of its scope,
    the end of the control loop with the close hook, reads, writes,
    sends.  In the state reached [IsActive] answers [true]; and a [Send]
    that returns the closed error there returns it from the branch of
    its [select] that sees the canceled scope, never from the test of
    the flag. *)
Theorem is_active_after_start (idle : Time.Duration)
    (before after : list event) (now : Time.Time) :
  let c := run (NewConn idle) (before ++ EStart now :: after) in
  IsActive c = true /\
  forall (encoded : option bytes) (prefer_done : bool) (from : closed_from),
    (Send c encoded prefer_done).1 = SendErrClosed from ->
    from = FromCanceledScope /\ done c = true.
Proof.
  intros c.
  assert (Hact : IsActive c = true).
  { unfold c, run. rewrite fold_left_app. simpl.
    assert (Hinv : started_active (fold_left step before (NewConn idle)))
      by (by apply run_started_active).
    apply run_active.
    - by apply (step_started_active _ (EStart now)).
    - by apply Start_active. }
  split; [done|].
  intros encoded prefer_done from. unfold Send. rewrite Hact. simpl.
  destruct encoded as [buf|]; [|done].
  destruct (done c), (sendCh_closed c), (_ <? _), prefer_done; simpl;
    intros ?; by simplify_eq.
Qed.

Lemma is_active_after_start_witness :
  let c := run (NewConn 0) [EStart 1000; EClose; EMainLoopDone] in
  IsActive c = true /\ closed c = true /\
  (Send c (Some []) true).1 = SendErrClosed FromCanceledScope /\
  FromCanceledScope = FromCanceledScope /\ done c = true.
Proof.
  pose proof (is_active_after_start 0 [] [EClose; EMainLoopDone] 1000)
    as [Hact Hsend].
  split; [exact Hact|]. split; [reflexivity|]. split; [reflexivity|].
  exact (Hsend (Some []) true FromCanceledScope eq_refl).
Defined.

End ConnLifecycle.

(** ** Idle detection in the control loop *)

Section IdleDetection.

Import Conn Time.

(** [Touch] stores nanoseconds; the idle branch reads the number as
    seconds.  The instant it compares with lies a factor of [10^9] after
    the last activity, so no tick ever finds the connection idle. *)
Lemma mainLoop_idle_silent (c : Conn) (now : Time) (idleNotified : bool) :
  0 <= IdleTimeout c -> now <= last c * 1000000000 ->
  mainLoop_idle c now idleNotified = (false, false).
Proof.
  intros Hidle Hnow. unfold mainLoop_idle, Since, Sub, Unix.
  assert (Hd : now - (last c * 1000000000 + 0) <= 0) by lia.
  unfold minDuration, maxDuration.
  destruct (_ <? - 2 ^ 63) eqn:Hmin.
  - replace (- 2 ^ 63 >? IdleTimeout c) with false; [done|].
    symmetry. rewrite Z.gtb_ltb. apply Z.ltb_ge. lia.
  - destruct (_ >? 2 ^ 63 - 1) eqn:Hmax.
    + apply Z.gtb_lt in Hmax. lia.
    + replace (_ >? IdleTimeout c) with false; [done|].
      symmetry. rewrite Z.gtb_ltb. apply Z.ltb_ge. lia.
Qed.

(** Read the way [LastActive] reads it, the same tick dispatches the idle
    hook once and rearms on activity. *)
Lemma idle_by_LastActive_spec (c : Conn) (now : Time) (idleNotified : bool) :
  in_int64 (now - last c) ->
  idle_by_LastActive c now idleNotified =
  if now - last c >? IdleTimeout c
  then (negb idleNotified, true) else (false, false).
Proof.
  intros Hr. unfold idle_by_LastActive, Since, Sub, LastActive, Unix.
  unfold in_int64, minDuration, maxDuration in *.
  replace (now - (0 * 1000000000 + last c)) with (now - last c) by lia.
  replace (now - last c <? - 2 ^ 63) with false
    by (symmetry; apply Z.ltb_ge; lia).
  replace (now - last c >? 2 ^ 63 - 1) with false
    by (symmetry; rewrite Z.gtb_ltb; apply Z.ltb_ge; lia).
  destruct (_ >? _); [|done]. by destruct idleNotified.
Qed.

(** C1, where the code departs from it.  A connection with an idle
    timeout of one second is started at 1 700 000 000 s after the epoch
    and stays silent.  At every idle tick, ten seconds later or an hour
    later, more than the threshold has elapsed since the last activity,
    and [mainLoop] does not dispatch the idle hook; the same test on
    [LastActive] dispatches it. *)
Theorem idle_hook_never_dispatched :
  let t := 1700000000 * Second in
  let c := Start (NewConn (1 * Second)) t in
  (Since (t + 10 * Second) (LastActive c) >? IdleTimeout c) = true /\
  mainLoop_idle c (t + 10 * Second) false = (false, false) /\
  mainLoop_idle c (t + 3600 * Second) false = (false, false) /\
  idle_by_LastActive c (t + 10 * Second) false = (true, true).
Proof. vm_compute. done. Qed.

End IdleDetection.

(** ** The datagram server's reaper *)

Section Reaper.

Import Udp Time.

(** [Reaper] keeps the connections whose age is within the threshold and
    deletes and closes exactly the others. *)
Lemma Reaper_spec (idle : Duration) (now : Time)
    (connMap : gmap udpKey Conn.Conn) (k : udpKey) (uc : Conn.Conn) :
  connMap !! k = Some uc ->
  if Sub now (Conn.LastActive uc) >? idle
  then (Reaper idle now connMap).1 !! k = None /\
       (Reaper idle now connMap).2 !! k = Some (Conn.Close uc)
  else (Reaper idle now connMap).1 !! k = Some uc /\
       (Reaper idle now connMap).2 !! k = None.
Proof.
  intros Hk. unfold Reaper. simpl.
  destruct (_ >? idle) eqn:Hage.
  - split.
    + apply map_lookup_filter_None. right. intros x Hx.
      simplify_eq. unfold reaped. simpl. by rewrite Hage.
    + rewrite lookup_fmap.
      erewrite (map_lookup_filter_Some_2 _ _ k uc); [done|done|].
      unfold reaped. simpl. by rewrite Hage.
  - split.
    + apply map_lookup_filter_Some_2; [done|].
      unfold reaped. simpl. by rewrite Hage.
    + rewrite lookup_fmap.
      assert (filter (fun kv : udpKey * Conn.Conn =>
                        reaped idle now kv.2 = true) connMap !! k = None) as ->.
      { apply map_lookup_filter_None. right. intros x Hx.
        simplify_eq. unfold reaped. simpl. by rewrite Hage. }
      done.
Qed.

(** C2, where the code departs from it.  With ten seconds configured, the
    reaper is handed five minutes and ticks every two and a half minutes;
    with nothing configured it is handed zero, not five minutes, and its
    ticker cannot be created. *)
Theorem udp_idle_timeout_inverted :
  Listen_idleTimeout (10 * Second) = 5 * Minute /\
  reaper_ticker (Listen_idleTimeout (10 * Second)) = Some (150 * Second) /\
  Listen_idleTimeout 0 = 0 /\
  reaper_ticker (Listen_idleTimeout 0) = None.
Proof. vm_compute. done. Qed.

End Reaper.
